(** * ComicBookPage: the panning viewer of a comic page

    A shallow embedding of [src/ComicBookPage.ts] (with [types.ts]) and the
    properties of its geometry, panning decision, keyframe builder, frame
    registry and activation entry points.

    Numbers.  A TypeScript [number] is a double.  The component is embedded
    over [number] below: a rational, extended with [NaN] and the two
    infinities so that division by zero and failed integer parsing behave
    as in the source.  [parseInt] rounds what it reads to a double; the
    four arithmetic operations are exact and there is one zero, so that
    what is proved over [number] is proved of the expressions of the source
    before rounding.  The theorems stated over [number] are those that do
    not turn on rounding: they compare, select or project the values that
    these expressions denote.  Where rounding decides, the statement is
    made over [Binary64], the embedding of the placement arithmetic over
    primitive floats.  The unchecked cast of parsed JSON can also put
    [null] in a slot typed [number]; it is kept as a value of its own and
    read as 0 by arithmetic, as the language does.

    Strings are kept as UTF-8 bytes. *)

From Stdlib Require Import Floats.
From Stdlib Require Import ZArith QArith Qcanon Ascii String List Bool Lia.
From Stdlib Require Import DecimalString DecimalNat.
From stdpp Require Import base option list gmap strings.

Set Default Proof Using "Type".
Set Warnings "-inexact-float".

(** ** Numbers *)

Module Num.

Inductive number : Type :=
| null
| NaN
| Infinity (negative : bool)
| Finite (q : Qc).

Definition ofZ (z : Z) : number := Finite (Q2Qc (inject_Z z)).
Definition ofQ (q : Q) : number := Finite (Q2Qc q).

(** [ToNumber] of the language, on the values a [number] slot can hold. *)
Definition ToNumber (x : number) : number :=
  match x with
  | null => Finite (Q2Qc 0)
  | _ => x
  end.

Definition sgn (q : Qc) : comparison := Qccompare q (Q2Qc 0).

(** The sign of a product, from the signs of its factors. *)
Definition sgn_mul (s t : comparison) : comparison :=
  match s, t with
  | Eq, _ | _, Eq => Eq
  | Lt, Lt | Gt, Gt => Gt
  | _, _ => Lt
  end.

Definition isNaN (x : number) : bool :=
  match ToNumber x with NaN => true | _ => false end.

(** Unary minus. *)
Definition neg (x : number) : number :=
  match ToNumber x with
  | Finite a => Finite (Qcopp a)
  | Infinity s => Infinity (negb s)
  | _ => NaN
  end.

Definition add (x y : number) : number :=
  match ToNumber x, ToNumber y with
  | Finite a, Finite b => Finite (Qcplus a b)
  | Finite _, Infinity t => Infinity t
  | Infinity s, Finite _ => Infinity s
  | Infinity s, Infinity t => if Bool.eqb s t then Infinity s else NaN
  | _, _ => NaN
  end.

Definition sub (x y : number) : number := add x (neg y).

Definition mul (x y : number) : number :=
  match ToNumber x, ToNumber y with
  | Finite a, Finite b => Finite (Qcmult a b)
  | Finite a, Infinity t =>
      match sgn a with Eq => NaN | Gt => Infinity t | Lt => Infinity (negb t) end
  | Infinity s, Finite b =>
      match sgn b with Eq => NaN | Gt => Infinity s | Lt => Infinity (negb s) end
  | Infinity s, Infinity t => Infinity (xorb s t)
  | _, _ => NaN
  end.

(** Division; a zero divisor is read as +0. *)
Definition div (x y : number) : number :=
  match ToNumber x, ToNumber y with
  | Finite a, Finite b =>
      match sgn b with
      | Eq => match sgn a with
              | Eq => NaN
              | Gt => Infinity false
              | Lt => Infinity true
              end
      | _ => Finite (Qcdiv a b)
      end
  | Finite _, Infinity _ => Finite (Q2Qc 0)
  | Infinity s, Finite b =>
      match sgn b with Lt => Infinity (negb s) | _ => Infinity s end
  | _, _ => NaN
  end.

(** [x < y]; false as soon as one side is [NaN]. *)
Definition ltb (x y : number) : bool :=
  match ToNumber x, ToNumber y with
  | Finite a, Finite b => match Qccompare a b with Lt => true | _ => false end
  | Finite _, Infinity t => negb t
  | Infinity s, Finite _ => s
  | Infinity s, Infinity t => s && negb t
  | _, _ => false
  end.

(** [x > y]. *)
Definition gtb (x y : number) : bool := ltb y x.

(** [x >= y]: not [x < y], unless one side is [NaN]. *)
Definition geb (x y : number) : bool :=
  if isNaN x || isNaN y then false else negb (ltb x y).

(** [x <= y]: not [y < x], unless one side is [NaN]. *)
Definition leb (x y : number) : bool :=
  if isNaN x || isNaN y then false else negb (ltb y x).

(** [Math.min(...args)]: every argument is coerced, the running minimum
    starts at +Infinity, and a [NaN] argument makes the result [NaN]. *)
Fixpoint min_from (lowest : number) (coerced : list number) : number :=
  match coerced with
  | [] => lowest
  | n :: rest =>
      if isNaN n then NaN
      else min_from (if ltb n lowest then n else lowest) rest
  end.

Definition Math_min (args : list number) : number :=
  min_from (Infinity false) (map ToNumber args).

(** [x == undefined] (loose) on an optional slot: true for undefined and
    for null. *)
Definition is_nullish (o : option number) : bool :=
  match o with
  | None => true
  | Some null => true
  | Some _ => false
  end.

(** [a ?? b]. *)
Definition nullish_coalesce (o : option number) (b : number) : number :=
  match o with
  | None => b
  | Some null => b
  | Some a => a
  end.

End Num.
Export Num.

Declare Scope num_scope.
Delimit Scope num_scope with num.
Bind Scope num_scope with number.
Notation "x + y" := (add x y) : num_scope.
Notation "x - y" := (sub x y) : num_scope.
Notation "x * y" := (mul x y) : num_scope.
Notation "x / y" := (div x y) : num_scope.
Notation "- x" := (neg x) : num_scope.

Open Scope string_scope.

(** ** Strings *)

(** [toLocaleLowerCase], on the ASCII letters.  The bytes of the other
    characters are kept: the mappings of letters beyond ASCII, and those
    that depend on the locale, are outside the model. *)
Definition lower_ascii (c : ascii) : ascii :=
  let n := nat_of_ascii c in
  if (65 <=? n)%nat && (n <=? 90)%nat then ascii_of_nat (n + 32) else c.

Fixpoint toLocaleLowerCase (s : string) : string :=
  match s with
  | EmptyString => EmptyString
  | String c rest => String (lower_ascii c) (toLocaleLowerCase rest)
  end.

(** [s.replace(/px$/, '')]: a final "px" is removed. *)
Fixpoint replace_px_end (s : string) : string :=
  match s with
  | EmptyString => EmptyString
  | String c rest =>
      if String.eqb s "px" then EmptyString else String c (replace_px_end rest)
  end.

(** White space skipped by [parseInt]: the characters of the language's
    WhiteSpace and LineTerminator productions.  A string is kept as its
    UTF-8 bytes, so that the characters beyond ASCII take two or three
    bytes: U+00A0; U+1680, U+2000 to U+200A, U+2028, U+2029, U+202F,
    U+205F, U+3000 and U+FEFF. *)
Definition is_white_space (c : ascii) : bool :=
  let n := nat_of_ascii c in
  ((9 <=? n)%nat && (n <=? 13)%nat) || (n =? 32)%nat.

Definition is_white_space2 (c1 c2 : ascii) : bool :=
  (nat_of_ascii c1 =? 194)%nat && (nat_of_ascii c2 =? 160)%nat.

Definition is_white_space3 (c1 c2 c3 : ascii) : bool :=
  let n1 := nat_of_ascii c1 in
  let n2 := nat_of_ascii c2 in
  let n3 := nat_of_ascii c3 in
  ((n1 =? 225)%nat && (n2 =? 154)%nat && (n3 =? 128)%nat)
  || ((n1 =? 226)%nat && (n2 =? 128)%nat
      && (((128 <=? n3)%nat && (n3 <=? 138)%nat)
          || (n3 =? 168)%nat || (n3 =? 169)%nat || (n3 =? 175)%nat))
  || ((n1 =? 226)%nat && (n2 =? 129)%nat && (n3 =? 159)%nat)
  || ((n1 =? 227)%nat && (n2 =? 128)%nat && (n3 =? 128)%nat)
  || ((n1 =? 239)%nat && (n2 =? 187)%nat && (n3 =? 191)%nat).

Fixpoint trimStart (s : string) : string :=
  match s with
  | String c1 rest1 =>
      if is_white_space c1 then trimStart rest1
      else
        match rest1 with
        | String c2 rest2 =>
            if is_white_space2 c1 c2 then trimStart rest2
            else
              match rest2 with
              | String c3 rest3 =>
                  if is_white_space3 c1 c2 c3 then trimStart rest3 else s
              | EmptyString => s
              end
        | EmptyString => s
        end
  | EmptyString => EmptyString
  end.

Definition digit_value (c : ascii) : option Z :=
  let n := nat_of_ascii c in
  if (48 <=? n)%nat && (n <=? 57)%nat then Some (Z.of_nat (n - 48)) else None.

(** The longest prefix of decimal digits, as an integer; [None] when the
    prefix is empty. *)
Fixpoint leading_digits (acc : option Z) (s : string) : option Z :=
  match s with
  | String c rest =>
      match digit_value c with
      | Some d => leading_digits (Some (10 * default 0 acc + d)%Z) rest
      | None => acc
      end
  | EmptyString => acc
  end.

(** The double nearest to an integer, ties to even.  The integers up to
    2^53 in absolute value are doubles themselves; a larger one is rounded
    to 53 significant bits, and to an infinity from 2^1024 - 2^970 on. *)
Definition to_double (z : Z) : number :=
  if (Z.abs z <=? 2 ^ 53)%Z then ofZ z
  else
    match binary_normalize 53 1024 z 0 false with
    | S754_finite s m e => ofZ (Z.shiftl (if s then Z.neg m else Z.pos m) e)
    | S754_infinity s => Infinity s
    | S754_zero _ => ofZ 0
    | S754_nan => NaN
    end.

(** Whether [parseInt] meets a minus sign in front of the digits. *)
Definition minus_sign (s : string) : bool :=
  match trimStart s with
  | String "-" _ => true
  | _ => false
  end.

(** [parseInt(s, 10)]: white space is skipped, then a sign, then the
    decimal digits are read as far as they go, and the integer they spell
    is rounded to a double.  (Beyond twenty digits the language lets an
    implementation read the further digits as zeros; all the digits are
    read here.  A zero behind a minus sign is -0 in the language and 0
    here.) *)
Definition parseInt (s : string) : number :=
  let s := trimStart s in
  let '(sign, s) :=
    match s with
    | String "-" rest => ((-1)%Z, rest)
    | String "+" rest => (1%Z, rest)
    | _ => (1%Z, s)
    end in
  match leading_digits None s with
  | None => NaN
  | Some n => to_double (sign * n)
  end.

(** ** Data model ([types.ts] and the interfaces of [ComicBookPage.ts]) *)

Module CanvasSize.
Record t : Type := mk { height : number; width : number }.
End CanvasSize.

Module ComicFrame.
Record t : Type := mk { height : number; width : number; left : number; top : number }.
End ComicFrame.

Module Point.
Record t : Type := mk { x : number; y : number }.
End Point.

Module ComicFramePosition.
Record t : Type := mk {
    width : number;
    height : number;
    topLeft : Point.t;
    bottomRight : Point.t;
  }.
End ComicFramePosition.

(** A keyframe handed to the tween engine: the four placement properties,
    a duration, and the opacity when the keyframe sets one. *)
Module AnimeAnimParams.
Record t : Type := mk {
    top : number;
    left : number;
    width : number;
    height : number;
    duration : number;
    opacity : option number;
  }.
End AnimeAnimParams.

(** ** The host document *)

(** The text of the cache attribute is represented by the JSON document it
    spells: an object with the members [height] and [width], each a number
    or [null]. *)
Inductive JSONValue : Type :=
| JSON_null
| JSON_number (q : Qc).

Record JSONObject : Type := {
  json_height : JSONValue;
  json_width : JSONValue;
}.

(** [JSON.stringify] of a number: [NaN] and the infinities are written
    [null]. *)
Definition JSON_stringify_number (x : number) : JSONValue :=
  match x with
  | Finite q => JSON_number q
  | _ => JSON_null
  end.

Definition JSON_stringify (frame : CanvasSize.t) : JSONObject :=
  {| json_height := JSON_stringify_number (CanvasSize.height frame);
     json_width := JSON_stringify_number (CanvasSize.width frame) |}.

Definition JSON_parse_value (v : JSONValue) : number :=
  match v with
  | JSON_null => null
  | JSON_number q => Finite q
  end.

(** [JSON.parse(...) as CanvasSize]: the cast is not checked. *)
Definition JSON_parse (o : JSONObject) : CanvasSize.t :=
  {| CanvasSize.height := JSON_parse_value (json_height o);
     CanvasSize.width := JSON_parse_value (json_width o) |}.

(** A [body > div] element: its id and its inline style. *)
Record HTMLDivElement : Type := {
  div_id : string;
  div_style : gmap string string;
}.

(** The cache attribute of the image, when it is set: the empty text,
    which the source takes for an attribute that is not set, or the text of
    a canvas size.  A text that [JSON.parse] rejects makes the constructor
    throw, and a text that spells another value gives no canvas size;
    documents with such a text are not represented. *)
Inductive CacheText : Type :=
| empty_text
| JSON_text (o : JSONObject).

(** The document, as far as the component reads it.  [img_style] is the
    inline style of the image as the page has it when the component is
    built, which is when [extractCanvasSize] reads it; what the
    constructor and the tween engine write on the style afterwards is kept
    apart, in the component ([setProperty_calls] and [engine]), and no
    line of the source reads the style again. *)
Record Document : Type := {
  img_id : string;
  img_style : gmap string string;
  img_dataset_CanvasSize : option CacheText;
  body_divs : list HTMLDivElement;
  container_clientWidth : number;
  container_clientHeight : number;
}.

(** [style.getPropertyValue(key)]: the empty string when the property is
    not set. *)
Definition getPropertyValue (style : gmap string string) (key : string) : string :=
  default "" (style !! key).

Definition set_dataset_CanvasSize (d : Document) (o : JSONObject) : Document :=
  {| img_id := img_id d;
     img_style := img_style d;
     img_dataset_CanvasSize := Some (JSON_text o);
     body_divs := body_divs d;
     container_clientWidth := container_clientWidth d;
     container_clientHeight := container_clientHeight d |}.

(** ** The tween engine, seen from the component *)

Inductive AnimeCall : Type :=
| anime_remove
| anime (keyframes : list AnimeAnimParams.t) (easing : string).

(** ** The component *)

(** At which factor should we pan over a frame? *)
Definition panningFactor : number := ofQ (175 # 100).
Definition focusDuration : number := ofZ 750.
Definition MAX_ZOOM_VALUE : number := ofZ 3.
Definition framePadding : number := ofZ 10.

Definition easing : string := "cubicBezier(0.455, 0.030, 0.515, 0.955)".

(** The fields of a [ComicBookPage] together with the two collaborators it
    acts on: the document behind its window and the calls received by the
    tween engine, oldest first.  An instance of the engine is identified by
    the keyframes it was started with.  [_canvasSize] is assigned by the
    constructor and never again.  [_instance] is the number of the
    component in log messages, undefined until it is first read, and
    [ComicBookPage_instance] is the static counter [ComicBookPage._instance]
    the numbers are drawn from.  [setProperty_calls] are the calls of
    [style.setProperty] on the image, oldest first: the property, and the
    number whose text, followed by px, is the value. *)
Record ComicBookPage : Type := {
  document : Document;
  engine : list AnimeCall;
  animeInstance : option (list AnimeAnimParams.t);
  _areas : option (gmap string ComicFrame.t);
  _currentFrame : option ComicFrame.t;
  _canvasSize : CanvasSize.t;
  _duration : option number;
  _instance : option nat;
  ComicBookPage_instance : nat;
  setProperty_calls : list (string * number);
}.

Definition clientWidth (this : ComicBookPage) : number :=
  container_clientWidth (document this).

Definition clientHeight (this : ComicBookPage) : number :=
  container_clientHeight (document this).

Definition set_areas (this : ComicBookPage) (m : gmap string ComicFrame.t) : ComicBookPage :=
  {| document := document this;
     engine := engine this;
     animeInstance := animeInstance this;
     _areas := Some m;
     _currentFrame := _currentFrame this;
     _canvasSize := _canvasSize this;
     _duration := _duration this;
     _instance := _instance this;
     ComicBookPage_instance := ComicBookPage_instance this;
     setProperty_calls := setProperty_calls this |}.

(** The two assignments of [SetCurrentFrame]. *)
Definition set_current (this : ComicBookPage) (frame : option ComicFrame.t) (duration : number)
  : ComicBookPage :=
  {| document := document this;
     engine := engine this;
     animeInstance := animeInstance this;
     _areas := _areas this;
     _currentFrame := frame;
     _canvasSize := _canvasSize this;
     _duration := Some duration;
     _instance := _instance this;
     ComicBookPage_instance := ComicBookPage_instance this;
     setProperty_calls := setProperty_calls this |}.

(** [animejs.remove(img)] followed by [this.animeInstance = animejs({...})].
    The engine then writes top, left, width, height and opacity on the
    image's style as the animation runs; the component hands over the
    keyframes and reads nothing back, so the calls are what is kept. *)
Definition start_animation (this : ComicBookPage) (keyframes : list AnimeAnimParams.t)
  : ComicBookPage :=
  {| document := document this;
     engine := engine this ++ [anime_remove; anime keyframes easing];
     animeInstance := Some keyframes;
     _areas := _areas this;
     _currentFrame := _currentFrame this;
     _canvasSize := _canvasSize this;
     _duration := _duration this;
     _instance := _instance this;
     ComicBookPage_instance := ComicBookPage_instance this;
     setProperty_calls := setProperty_calls this |}.

(** The viewport changes size: the container is laid out anew. *)
Definition set_document (this : ComicBookPage) (d : Document) : ComicBookPage :=
  {| document := d;
     engine := engine this;
     animeInstance := animeInstance this;
     _areas := _areas this;
     _currentFrame := _currentFrame this;
     _canvasSize := _canvasSize this;
     _duration := _duration this;
     _instance := _instance this;
     ComicBookPage_instance := ComicBookPage_instance this;
     setProperty_calls := setProperty_calls this |}.

Definition set_instance (this : ComicBookPage) (n : nat) : ComicBookPage :=
  {| document := document this;
     engine := engine this;
     animeInstance := animeInstance this;
     _areas := _areas this;
     _currentFrame := _currentFrame this;
     _canvasSize := _canvasSize this;
     _duration := _duration this;
     _instance := Some n;
     ComicBookPage_instance := n;
     setProperty_calls := setProperty_calls this |}.

Definition set_setProperty_calls (this : ComicBookPage) (calls : list (string * number))
  : ComicBookPage :=
  {| document := document this;
     engine := engine this;
     animeInstance := animeInstance this;
     _areas := _areas this;
     _currentFrame := _currentFrame this;
     _canvasSize := _canvasSize this;
     _duration := _duration this;
     _instance := _instance this;
     ComicBookPage_instance := ComicBookPage_instance this;
     setProperty_calls := calls |}.

(** The [instance] getter:
    [this._instance ?? (this._instance = ++ComicBookPage._instance)]. *)
Definition instance (this : ComicBookPage) : nat * ComicBookPage :=
  match _instance this with
  | Some n => (n, this)
  | None =>
      let n := S (ComicBookPage_instance this) in
      (n, set_instance this n)
  end.

(** The [cls] getter builds the name used in log messages from the
    instance number; the text goes to the console only, what stays of the
    read is the component as [instance] leaves it. *)
Definition cls (this : ComicBookPage) : ComicBookPage := (instance this).2.

(** Ensure ComicFrame for both full page segments and comic book frame
    segments. *)
Definition ensureComicFrame (this : ComicBookPage) (frame : option ComicFrame.t) : ComicFrame.t :=
  match frame with
  | None =>
      {| ComicFrame.height := CanvasSize.height (_canvasSize this);
         ComicFrame.width := CanvasSize.width (_canvasSize this);
         ComicFrame.left := ofZ 0;
         ComicFrame.top := ofZ 0 |}
  | Some frame => frame
  end.

(** Convert a ComicFrame to a ComicFramePosition. *)
Definition makeFramePosition (f : ComicFrame.t) : ComicFramePosition.t :=
  let x := ComicFrame.left f in
  let y := ComicFrame.top f in
  let width := ComicFrame.width f in
  let height := ComicFrame.height f in
  {| ComicFramePosition.width := width;
     ComicFramePosition.height := height;
     ComicFramePosition.topLeft := {| Point.x := x; Point.y := y |};
     ComicFramePosition.bottomRight :=
       {| Point.x := (x + width)%num; Point.y := (y + height)%num |} |}.

(** Should we do vertical panning? *)
Definition shouldDoVerticalPanning (this : ComicBookPage) (framePosition : ComicFramePosition.t) : bool :=
  geb (ComicFramePosition.height framePosition / ComicFramePosition.width framePosition)%num
      panningFactor
  && gtb (ComicFramePosition.height framePosition) (clientHeight this * panningFactor)%num.

(** Should we do horizontal panning? *)
Definition shouldDoHorizontalPanning (this : ComicBookPage) (framePosition : ComicFramePosition.t) : bool :=
  geb (ComicFramePosition.width framePosition / ComicFramePosition.height framePosition)%num
      panningFactor
  && gtb (ComicFramePosition.width framePosition) (clientWidth this * panningFactor)%num.

(** The locals of [calcFramePositionAndSize], in the order it computes
    them. *)
Definition paddedClientWidth (this : ComicBookPage) : number :=
  (clientWidth this - framePadding * ofZ 2)%num.

Definition paddedClientHeight (this : ComicBookPage) : number :=
  (clientHeight this - framePadding * ofZ 2)%num.

(** Scale factor for the frame to fit into the container. *)
Definition frameScale (this : ComicBookPage) (frame : ComicFramePosition.t) : number :=
  Math_min [MAX_ZOOM_VALUE;
            (paddedClientWidth this / ComicFramePosition.width frame)%num;
            (paddedClientHeight this / ComicFramePosition.height frame)%num].

Definition xCentering (this : ComicBookPage) (frame : ComicFramePosition.t) : number :=
  let scaledFrameWidth := (ComicFramePosition.width frame * frameScale this frame)%num in
  if ltb scaledFrameWidth (paddedClientWidth this)
  then ((paddedClientWidth this - scaledFrameWidth) / ofZ 2)%num
  else ofZ 0.

Definition yCentering (this : ComicBookPage) (frame : ComicFramePosition.t) : number :=
  let scaledFrameHeight := (ComicFramePosition.height frame * frameScale this frame)%num in
  if ltb scaledFrameHeight (paddedClientHeight this)
  then ((paddedClientHeight this - scaledFrameHeight) / ofZ 2)%num
  else ofZ 0.

(** Calculate the position and sizing info needed to show a frame within
    the container element. *)
Definition calcFramePositionAndSize (this : ComicBookPage) (frame : ComicFramePosition.t)
  : ComicFrame.t :=
  let imageWidth := CanvasSize.width (_canvasSize this) in
  let imageHeight := CanvasSize.height (_canvasSize this) in
  let frameX0 := Point.x (ComicFramePosition.topLeft frame) in
  let frameY0 := Point.y (ComicFramePosition.topLeft frame) in
  let scale := frameScale this frame in
  let scaledImageWidth := (imageWidth * scale)%num in
  let scaledImageHeight := (imageHeight * scale)%num in
  let scaledFrameX0 := (- (frameX0 * scale))%num in
  let scaledFrameY0 := (- (frameY0 * scale))%num in
  {| ComicFrame.top := (yCentering this frame + scaledFrameY0 + framePadding)%num;
     ComicFrame.left := (xCentering this frame + scaledFrameX0 + framePadding)%num;
     ComicFrame.width := scaledImageWidth;
     ComicFrame.height := scaledImageHeight |}.

(** A placement with a duration and, for the first keyframe, an opacity. *)
Definition keyframe (placement : ComicFrame.t) (duration : number) (opacity : option number)
  : AnimeAnimParams.t :=
  {| AnimeAnimParams.top := ComicFrame.top placement;
     AnimeAnimParams.left := ComicFrame.left placement;
     AnimeAnimParams.width := ComicFrame.width placement;
     AnimeAnimParams.height := ComicFrame.height placement;
     AnimeAnimParams.duration := duration;
     AnimeAnimParams.opacity := opacity |}.

(** The keyframe [k] carries the placement [p]. *)
Definition placed_at (k : AnimeAnimParams.t) (p : ComicFrame.t) : Prop :=
  AnimeAnimParams.top k = ComicFrame.top p
  ∧ AnimeAnimParams.left k = ComicFrame.left p
  ∧ AnimeAnimParams.width k = ComicFrame.width p
  ∧ AnimeAnimParams.height k = ComicFrame.height p.

Definition with_height (f : ComicFrame.t) (h : number) : ComicFrame.t :=
  {| ComicFrame.height := h;
     ComicFrame.width := ComicFrame.width f;
     ComicFrame.left := ComicFrame.left f;
     ComicFrame.top := ComicFrame.top f |}.

Definition with_width (f : ComicFrame.t) (w : number) : ComicFrame.t :=
  {| ComicFrame.height := ComicFrame.height f;
     ComicFrame.width := w;
     ComicFrame.left := ComicFrame.left f;
     ComicFrame.top := ComicFrame.top f |}.

(** [p.topLeft.y += d] and [p.topLeft.x += d]; the other members of the
    position keep their values. *)
Definition topLeft_y_add (p : ComicFramePosition.t) (d : number) : ComicFramePosition.t :=
  {| ComicFramePosition.width := ComicFramePosition.width p;
     ComicFramePosition.height := ComicFramePosition.height p;
     ComicFramePosition.topLeft :=
       {| Point.x := Point.x (ComicFramePosition.topLeft p);
          Point.y := (Point.y (ComicFramePosition.topLeft p) + d)%num |};
     ComicFramePosition.bottomRight := ComicFramePosition.bottomRight p |}.

Definition topLeft_x_add (p : ComicFramePosition.t) (d : number) : ComicFramePosition.t :=
  {| ComicFramePosition.width := ComicFramePosition.width p;
     ComicFramePosition.height := ComicFramePosition.height p;
     ComicFramePosition.topLeft :=
       {| Point.x := (Point.x (ComicFramePosition.topLeft p) + d)%num;
          Point.y := Point.y (ComicFramePosition.topLeft p) |};
     ComicFramePosition.bottomRight := ComicFramePosition.bottomRight p |}.

(** The pair [(panFramePosition, finalFramePosition)] of
    [renderCurrentComicFrame]; [None] when both stay undefined. *)
Definition panFramePositions (this : ComicBookPage) (currentFrame : ComicFrame.t)
  : option (ComicFramePosition.t * ComicFramePosition.t) :=
  let framePosition := makeFramePosition currentFrame in
  if shouldDoVerticalPanning this framePosition then
    (* Vertical pan from top to bottom *)
    let topHalfFrame := with_height currentFrame (ComicFrame.width currentFrame) in
    let panFramePosition := makeFramePosition topHalfFrame in
    let finalFramePosition :=
      topLeft_y_add (makeFramePosition topHalfFrame)
        (ComicFrame.height currentFrame - ComicFrame.width currentFrame + framePadding)%num in
    Some (panFramePosition, finalFramePosition)
  else if shouldDoHorizontalPanning this framePosition then
    (* Horizontal pan from left to right *)
    let leftHalfFrame := with_width currentFrame (ComicFrame.height currentFrame) in
    let panFramePosition := makeFramePosition leftHalfFrame in
    let finalFramePosition :=
      topLeft_x_add (makeFramePosition leftHalfFrame)
        (ComicFrame.width currentFrame - ComicFrame.height currentFrame + framePadding)%num in
    Some (panFramePosition, finalFramePosition)
  else None.

(** The [keyframes] array of [renderCurrentComicFrame].  The duration of
    the last keyframe is the expression
    [this._duration ?? 0 - 2 * focusDuration], in which the subtraction
    binds tighter than [??]. *)
Definition buildKeyframes (this : ComicBookPage) (currentFrame : ComicFrame.t)
  : list AnimeAnimParams.t :=
  let framePosition := makeFramePosition currentFrame in
  let keyframes :=
    [keyframe (calcFramePositionAndSize this framePosition) focusDuration (Some (ofZ 1))] in
  match panFramePositions this currentFrame with
  | Some (panFramePosition, finalFramePosition) =>
      keyframes ++
      [keyframe (calcFramePositionAndSize this panFramePosition) focusDuration None;
       keyframe (calcFramePositionAndSize this finalFramePosition)
         (nullish_coalesce (_duration this) (ofZ 0 - ofZ 2 * focusDuration)%num) None]
  | None => keyframes
  end.

(** Render the comic book frame.  The first statement builds a prefix for
    the log messages from [this.cls], before the guard. *)
Definition renderCurrentComicFrame (this : ComicBookPage) : ComicBookPage :=
  let this := cls this in
  match _currentFrame this with
  | None => this
  | Some currentFrame =>
      if is_nullish (_duration this) then this
      else start_animation this (buildKeyframes this currentFrame)
  end.

Definition style_number (style : gmap string string) (key : string) : number :=
  let value := getPropertyValue style key in
  if String.eqb value "" then ofZ 0 (* reported on the console, the default is kept *)
  else parseInt (replace_px_end value).

Definition extractComicFrame (area : HTMLDivElement) : ComicFrame.t :=
  {| ComicFrame.height := style_number (div_style area) "height";
     ComicFrame.width := style_number (div_style area) "width";
     ComicFrame.left := style_number (div_style area) "left";
     ComicFrame.top := style_number (div_style area) "top" |}.

(** [extractCanvasSize]: the cached size when the attribute holds a text
    that is not empty, otherwise the size read from the image's style,
    which is then cached. *)
Definition extractCanvasSize (d : Document) : CanvasSize.t * Document :=
  match img_dataset_CanvasSize d with
  | Some (JSON_text o) => (JSON_parse o, d)
  | Some empty_text | None =>
      let frame :=
        {| CanvasSize.height := style_number (img_style d) "height";
           CanvasSize.width := style_number (img_style d) "width" |} in
      (frame, set_dataset_CanvasSize d (JSON_stringify frame))
  end.

(** The loop of the [comicAreas] getter over the [body > div] elements. *)
Definition register_area (areas : gmap string ComicFrame.t) (area : HTMLDivElement)
  : gmap string ComicFrame.t :=
  let frame := extractComicFrame area in
  <[String "#" (div_id area) := frame]> (<[div_id area := frame]> areas).

(** The [comicAreas] getter: the registry and the component, whose cache
    is filled by the first read. *)
Definition comicAreas (this : ComicBookPage) : gmap string ComicFrame.t * ComicBookPage :=
  match _areas this with
  | Some areas => (areas, this)
  | None =>
      let canvasFrame := ensureComicFrame this None in
      let id := img_id (document this) in
      let areas0 : gmap string ComicFrame.t :=
        <[String "#" id := canvasFrame]> (<[id := canvasFrame]> ∅) in
      let areas := fold_left register_area (body_divs (document this)) areas0 in
      (areas, set_areas this areas)
  end.

(** Set current comic frame from id and duration. *)
Definition SetCurrentFrame (this : ComicBookPage) (id : string) (duration : number)
  : ComicBookPage :=
  let '(areas, this) := comicAreas this in
  match areas !! toLocaleLowerCase id with
  | Some _ =>
      let '(areas, this) := comicAreas this in
      renderCurrentComicFrame
        (set_current this (areas !! toLocaleLowerCase id) duration)
  | None => this
  end.

Definition onResize (this : ComicBookPage) : ComicBookPage :=
  renderCurrentComicFrame this.

(** The constructor: the canvas size is extracted (and cached on the
    image), nothing is current yet, and the placement of the whole page is
    written on the image's style, property by property in the order of the
    object returned by [calcFramePositionAndSize].  The registration of
    [onResize] with the window is the [Resize] event below.  The static
    counter is at its initial 0: [Setup] builds one component for a
    window. *)
Definition new_ComicBookPage (d : Document) : ComicBookPage :=
  let '(canvasSize, d) := extractCanvasSize d in
  let this :=
    {| document := d;
       engine := [];
       animeInstance := None;
       _areas := None;
       _currentFrame := None;
       _canvasSize := canvasSize;
       _duration := None;
       _instance := None;
       ComicBookPage_instance := 0;
       setProperty_calls := [] |} in
  let placed :=
    calcFramePositionAndSize this (makeFramePosition (ensureComicFrame this None)) in
  set_setProperty_calls this
    [("top", ComicFrame.top placed); ("left", ComicFrame.left placed);
     ("width", ComicFrame.width placed); ("height", ComicFrame.height placed)].

(** ** Documents used in the examples *)

Definition style_of (l : list (string * string)) : gmap string string :=
  list_to_map l.

Definition frame_div (id : string) (left top width height : string) : HTMLDivElement :=
  {| div_id := id;
     div_style := style_of [("left", left); ("top", top);
                            ("width", width); ("height", height)] |}.

(** A page of 1000 by 2000 with one frame of 500 by 1750 at its origin,
    shown in a container of 500 by 500. *)
Definition tall_document : Document :=
  {| img_id := "page";
     img_style := style_of [("width", "1000px"); ("height", "2000px")];
     img_dataset_CanvasSize := None;
     body_divs := [frame_div "frame1" "0px" "0px" "500px" "1750px"];
     container_clientWidth := ofZ 500;
     container_clientHeight := ofZ 500 |}.

Definition tall_frame : ComicFrame.t :=
  {| ComicFrame.height := ofZ 1750; ComicFrame.width := ofZ 500;
     ComicFrame.left := ofZ 0; ComicFrame.top := ofZ 0 |}.

(** The same page, whose frame element has capitals in its id. *)
Definition capital_document : Document :=
  {| img_id := "page";
     img_style := style_of [("width", "1000px"); ("height", "2000px")];
     img_dataset_CanvasSize := None;
     body_divs := [frame_div "Frame1" "0px" "0px" "500px" "1750px"];
     container_clientWidth := ofZ 500;
     container_clientHeight := ofZ 500 |}.

(** An image whose height is left to the layout. *)
Definition auto_height_document : Document :=
  {| img_id := "page";
     img_style := style_of [("width", "1000px"); ("height", "auto")];
     img_dataset_CanvasSize := None;
     body_divs := [];
     container_clientWidth := ofZ 500;
     container_clientHeight := ofZ 500 |}.

(** The tall page with an empty cache attribute on its image. *)
Definition empty_cache_document : Document :=
  {| img_id := "page";
     img_style := style_of [("width", "1000px"); ("height", "2000px")];
     img_dataset_CanvasSize := Some empty_text;
     body_divs := [frame_div "frame1" "0px" "0px" "500px" "1750px"];
     container_clientWidth := ofZ 500;
     container_clientHeight := ofZ 500 |}.

Fixpoint zeros (n : nat) : string :=
  match n with
  | O => ""
  | S n => String "0" (zeros n)
  end.

(** An image whose width is written with 310 digits: 10^309 pixels. *)
Definition long_width_document : Document :=
  {| img_id := "page";
     img_style := style_of [("width", String "1" (zeros 309) ++ "px");
                            ("height", "2000px")];
     img_dataset_CanvasSize := None;
     body_divs := [];
     container_clientWidth := ofZ 500;
     container_clientHeight := ofZ 500 |}.

(** A frame of 500 by 875: 875 / 500 = 1.75 and 875 = 500 * 1.75. *)
Definition boundary_frame : ComicFrame.t :=
  {| ComicFrame.height := ofZ 875; ComicFrame.width := ofZ 500;
     ComicFrame.left := ofZ 0; ComicFrame.top := ofZ 0 |}.

(** A frame of 480 by 480: the container of 500 by 500 less its padding. *)
Definition fitting_frame : ComicFrame.t :=
  {| ComicFrame.height := ofZ 480; ComicFrame.width := ofZ 480;
     ComicFrame.left := ofZ 100; ComicFrame.top := ofZ 200 |}.

(** The component built on a document, after a frame was requested. *)
Definition activated (d : Document) (id : string) (duration : number) : ComicBookPage :=
  SetCurrentFrame (new_ComicBookPage d) id duration.

(** ** The resize event and sequences of requests *)

Definition set_container (d : Document) (width height : number) : Document :=
  {| img_id := img_id d;
     img_style := img_style d;
     img_dataset_CanvasSize := img_dataset_CanvasSize d;
     body_divs := body_divs d;
     container_clientWidth := width;
     container_clientHeight := height |}.

(** What reaches the component after its construction: a call of
    [SetCurrentFrame], or a resize of the viewport, after which the
    container has a new size and [onResize] runs. *)
Inductive Event : Type :=
| Activate (id : string) (duration : number)
| Resize (width height : number).

Definition step (this : ComicBookPage) (e : Event) : ComicBookPage :=
  match e with
  | Activate id duration => SetCurrentFrame this id duration
  | Resize width height =>
      onResize (set_document this (set_container (document this) width height))
  end.

Definition run (this : ComicBookPage) (events : list Event) : ComicBookPage :=
  fold_left step events this.

(** The calls received by the engine come in pairs: a removal, then a
    start. *)
Fixpoint paired (calls : list AnimeCall) : bool :=
  match calls with
  | [] => true
  | anime_remove :: anime _ _ :: rest => paired rest
  | _ => false
  end.

(** The registry as the [comicAreas] getter builds it from the document,
    and the cache holding nothing else. *)
Definition registry_of (this : ComicBookPage) : gmap string ComicFrame.t :=
  let canvasFrame := ensureComicFrame this None in
  let id := img_id (document this) in
  fold_left register_area (body_divs (document this))
    (<[String "#" id := canvasFrame]> (<[id := canvasFrame]> ∅)).

Definition cache_valid (this : ComicBookPage) : Prop :=
  ∀ areas, _areas this = Some areas → areas = registry_of this.

(** The elements that give the registry the key [key]. *)
Definition names (key : string) (area : HTMLDivElement) : Prop :=
  key = div_id area ∨ key = String "#" (div_id area).

(** What no event changes, and what every event keeps true. *)
Definition kept (this this' : ComicBookPage) : Prop :=
  _canvasSize this' = _canvasSize this
  ∧ img_id (document this') = img_id (document this)
  ∧ img_dataset_CanvasSize (document this') = img_dataset_CanvasSize (document this)
  ∧ body_divs (document this') = body_divs (document this)
  ∧ (∃ more, engine this' = (engine this ++ more)%list ∧ paired more = true)
  ∧ (cache_valid this → cache_valid this').

(** A dimension that the cache gives back as it was extracted: it is a
    finite number, and not a zero that the style writes with a minus sign
    (the language reads that as -0 and writes it to the cache as 0). *)
Definition survives_cache (style : gmap string string) (key : string) : Prop :=
  ∃ q, style_number style key = Finite q
       ∧ (q = Q2Qc 0 → minus_sign (replace_px_end (getPropertyValue style key)) = false).

(** ** Style values in pixels *)

(** The decimal notation of a natural number, and a length in pixels as
    it stands in a style. *)
Definition decimal (n : nat) : string := NilEmpty.string_of_uint (Nat.to_uint n).

Definition px (n : nat) : string := decimal n ++ "px".

Definition starts_with_digit (s : string) : bool :=
  match s with
  | String c _ => bool_decide (is_Some (digit_value c))
  | EmptyString => false
  end.

Definition starts_with_hash (s : string) : bool :=
  match s with
  | String "#" _ => true
  | _ => false
  end.

(** ** The instance numbers used in log messages *)

(** The static counter [ComicBookPage._instance] and the [_instance]
    field of each component, components being told apart by their position
    in the list. *)
Module Instance.

Record store : Type := mk {
  static_instance : nat;
  own_instance : list (option nat);
}.

(** The [instance] getter of component [i]:
    [this._instance ?? (this._instance = ++ComicBookPage._instance)].
    [None] when there is no such component. *)
Definition instance (i : nat) (st : store) : option (nat * store) :=
  match own_instance st !! i with
  | None => None
  | Some (Some n) => Some (n, st)
  | Some None =>
      let n := S (static_instance st) in
      Some (n, {| static_instance := n;
                  own_instance := <[i := Some n]> (own_instance st) |})
  end.


End Instance.

(** ** The reader controls ([DemoComicPanning]) *)

Module DemoComicPanning.

Record MediaOverlayNarrationNode : Type := { text : string; audio : string }.

(** The member [narration] of a [MediaOverlayNarration] is named
    [segment_narration] here, apart from the one of a [MediaOverlay]. *)
Record MediaOverlayNarration : Type := {
  segment_narration : list MediaOverlayNarrationNode;
}.

Record MediaOverlay : Type := {
  role : string;
  narration : list MediaOverlayNarration;
}.

(** The navigation state of the element. *)
Record t : Type := mk {
  mediaOverlay : option MediaOverlay;
  navIdx : Z;
}.

(** [this.mediaOverlay?.narration?.[0]?.narration], when there is one. *)
Definition first_narration (this : t) : option (list MediaOverlayNarrationNode) :=
  match mediaOverlay this with
  | Some overlay =>
      match narration overlay with
      | first :: _ => Some (segment_narration first)
      | [] => None
      end
  | None => None
  end.

Definition navLength (this : t) : Z :=
  match first_narration this with
  | Some nodes => Z.of_nat (length nodes)
  | None => 0
  end.

Definition canGoBack (this : t) : bool := (0 <? navIdx this)%Z.

Definition canGoForward (this : t) : bool := (navIdx this + 1 <? navLength this)%Z.

(** [narration[navIdx]]: undefined outside the array. *)
Definition narrationItem (this : t) : option MediaOverlayNarrationNode :=
  match first_narration this with
  | Some nodes =>
      if (navIdx this <? 0)%Z then None else nodes !! Z.to_nat (navIdx this)
  | None => None
  end.

Definition set_navIdx (this : t) (i : Z) : t :=
  {| mediaOverlay := mediaOverlay this; navIdx := i |}.

(** The two handlers, as far as the navigation state goes. *)
Definition prevSegmentEvent (this : t) : t :=
  if (0 <? navIdx this)%Z then set_navIdx this (navIdx this - 1) else this.

Definition nextSegmentEvent (this : t) : t :=
  set_navIdx this (Z.min (navLength this - 1) (navIdx this + 1)).

End DemoComicPanning.

(** A narration of three items, the second being current. *)
Definition narration_node (t : string) : DemoComicPanning.MediaOverlayNarrationNode :=
  {| DemoComicPanning.text := t; DemoComicPanning.audio := "audio.mp3#t=0,1" |}.

Definition three_items : DemoComicPanning.t :=
  {| DemoComicPanning.mediaOverlay :=
       Some {| DemoComicPanning.role := "section";
               DemoComicPanning.narration :=
                 [{| DemoComicPanning.segment_narration :=
                       [narration_node "#a"; narration_node "#b"; narration_node "#c"] |}] |};
     DemoComicPanning.navIdx := 1 |}.

(** ** The placement in binary64 *)

(** The arithmetic of [calcFramePositionAndSize] once more, on the doubles
    of the language: Rocq's primitive floats are the binary64 numbers of
    IEEE 754, rounded to nearest with ties to even.  Every operation stands
    where the source has it.  The definitions above compute with exact
    rationals; these say what rounding makes of the same expressions. *)
Module Binary64.

Record CanvasSize : Type := { canvas_height : float; canvas_width : float }.

Record ComicFramePosition : Type := {
  frame_width : float;
  frame_height : float;
  topLeft_x : float;
  topLeft_y : float;
}.

Record ComicFrame : Type := { top : float; left : float; width : float; height : float }.

Definition MAX_ZOOM_VALUE : float := 3%float.
Definition framePadding : float := 10%float.

Definition is_negative_zero (x : float) : bool :=
  match classify x with NZero => true | _ => false end.

Definition is_positive_zero (x : float) : bool :=
  match classify x with PZero => true | _ => false end.

(** [Math.min(...args)]: the running minimum starts at +Infinity, a [NaN]
    argument makes the result [NaN], and -0 counts as less than +0. *)
Fixpoint min_from (lowest : float) (coerced : list float) : float :=
  match coerced with
  | [] => lowest
  | n :: rest =>
      if is_nan n then nan
      else if is_negative_zero n && is_positive_zero lowest then min_from n rest
      else min_from (if (n <? lowest)%float then n else lowest) rest
  end.

Definition Math_min (args : list float) : float := min_from infinity args.

(** Scale factor for the frame to fit into the container. *)
Definition frameScale (clientWidth clientHeight : float) (frame : ComicFramePosition)
  : float :=
  let clientWidth := (clientWidth - framePadding * 2)%float in
  let clientHeight := (clientHeight - framePadding * 2)%float in
  Math_min [MAX_ZOOM_VALUE; (clientWidth / frame_width frame)%float;
            (clientHeight / frame_height frame)%float].

Definition calcFramePositionAndSize (clientWidth clientHeight : float)
  (canvasSize : CanvasSize) (frame : ComicFramePosition) : ComicFrame :=
  let scale := frameScale clientWidth clientHeight frame in
  let clientWidth := (clientWidth - framePadding * 2)%float in
  let clientHeight := (clientHeight - framePadding * 2)%float in
  let imageWidth := canvas_width canvasSize in
  let imageHeight := canvas_height canvasSize in
  let frameWidth := frame_width frame in
  let frameHeight := frame_height frame in
  let frameX0 := topLeft_x frame in
  let frameY0 := topLeft_y frame in
  let scaledImageWidth := (imageWidth * scale)%float in
  let scaledImageHeight := (imageHeight * scale)%float in
  let scaledFrameX0 := (- (frameX0 * scale))%float in
  let scaledFrameY0 := (- (frameY0 * scale))%float in
  let scaledFrameWidth := (frameWidth * scale)%float in
  let xCentering :=
    if (scaledFrameWidth <? clientWidth)%float
    then ((clientWidth - scaledFrameWidth) / 2)%float else 0%float in
  let scaledFrameHeight := (frameHeight * scale)%float in
  let yCentering :=
    if (scaledFrameHeight <? clientHeight)%float
    then ((clientHeight - scaledFrameHeight) / 2)%float else 0%float in
  {| top := (yCentering + scaledFrameY0 + framePadding)%float;
     left := (xCentering + scaledFrameX0 + framePadding)%float;
     width := scaledImageWidth;
     height := scaledImageHeight |}.

End Binary64.

(** A page of 1000 by 1500 and a frame of 100 by 182 on it, for a
    container of 500 by 500. *)
Definition wide_canvas : Binary64.CanvasSize :=
  {| Binary64.canvas_height := 1500%float; Binary64.canvas_width := 1000%float |}.

Definition slim_frame : Binary64.ComicFramePosition :=
  {| Binary64.frame_width := 100%float; Binary64.frame_height := 182%float;
     Binary64.topLeft_x := 0%float; Binary64.topLeft_y := 0%float |}.

(** * Properties *)

(** ** Arithmetic of [number] *)

Section NumberFacts.

Implicit Types x y z : number.
Implicit Types a b c : Qc.

Lemma ToNumber_idem x : ToNumber (ToNumber x) = ToNumber x.
Proof. by destruct x. Qed.

Lemma ToNumber_not_null x : ToNumber x ≠ null.
Proof. by destruct x. Qed.

Lemma Qccompare_refl a : Qccompare a a = Eq.
Proof. by apply Qceq_alt. Qed.

Lemma ltb_irrefl x : ltb x x = false.
Proof.
  unfold ltb. destruct (ToNumber x) as [| |s|a]; try done.
  - by destruct s.
  - by rewrite Qccompare_refl.
Qed.

Lemma Qccompare_Lt_trans a b c :
  Qccompare a b = Lt → Qccompare b c = Lt → Qccompare a c = Lt.
Proof. rewrite <- !Qclt_alt. apply Qclt_trans. Qed.

Lemma ltb_trans x y z : ltb x y = true → ltb y z = true → ltb x z = true.
Proof.
  unfold ltb.
  destruct (ToNumber x) as [| |s|a], (ToNumber y) as [| |t|b],
    (ToNumber z) as [| |u|c];
    repeat match goal with s : bool |- _ => destruct s end; try done.
  destruct (Qccompare a b) eqn:Hab; try done.
  destruct (Qccompare b c) eqn:Hbc; try done.
  by rewrite (Qccompare_Lt_trans a b c).
Qed.

(** The running minimum never ends above its starting value. *)
Lemma min_from_not_above coerced : ∀ lowest, ltb lowest (min_from lowest coerced) = false.
Proof.
  induction coerced as [|n rest IH]; intros lowest; simpl.
  - apply ltb_irrefl.
  - destruct (isNaN n).
    + unfold ltb. by destruct (ToNumber lowest).
    + destruct (ltb n lowest) eqn:Hn; [|apply IH].
      destruct (ltb lowest (min_from n rest)) eqn:Hl; [|done].
      by rewrite <- (IH n), (ltb_trans n lowest _ Hn Hl).
Qed.

(** With no [NaN] in between, what is not below one number is below
    whatever that number is below. *)
Lemma ltb_cotrans x y z :
  isNaN y = false → ltb x z = true → ltb x y = false → ltb y z = true.
Proof.
  unfold isNaN, ltb. pose proof (ToNumber_not_null y) as Hy.
  destruct (ToNumber x) as [| |s|a], (ToNumber y) as [| |t|b],
    (ToNumber z) as [| |u|c];
    repeat match goal with s : bool |- _ => destruct s end; try done.
  intros _.
  destruct (Qccompare a c) eqn:Hac; try done.
  destruct (Qccompare a b) eqn:Hab; try done; intros _ _.
  - apply Qceq_alt in Hab as <-. by rewrite Hac.
  - apply Qcgt_alt in Hab. apply Qclt_alt in Hac.
    by rewrite (proj1 (Qclt_alt b c) (Qclt_trans b a c Hab Hac)).
Qed.

(** One [NaN] argument makes the running minimum [NaN]. *)
Lemma min_from_NaN coerced : ∀ lowest n,
  n ∈ coerced → isNaN n = true → min_from lowest coerced = NaN.
Proof.
  induction coerced as [|m rest IH]; intros lowest n Hin Hnan.
  - by apply elem_of_nil in Hin.
  - simpl. apply elem_of_cons in Hin as [<-|Hin]; [by rewrite Hnan|].
    destruct (isNaN m); [done|]. by apply (IH _ n).
Qed.

(** Without [NaN], the running minimum is the start or one of the
    numbers, and none of the numbers is below it. *)
Lemma min_from_member coerced : ∀ lowest,
  Forall (λ n, isNaN n = false) coerced →
  min_from lowest coerced = lowest ∨ min_from lowest coerced ∈ coerced.
Proof.
  induction coerced as [|m rest IH]; intros lowest Hall; simpl; [by left|].
  apply Forall_cons in Hall as [-> Hall].
  destruct (IH (if ltb m lowest then m else lowest) Hall) as [->|Hin].
  - destruct (ltb m lowest); [right; by left | by left].
  - right. by right.
Qed.

Lemma min_from_lower_bound coerced : ∀ lowest n,
  isNaN lowest = false → Forall (λ n, isNaN n = false) coerced →
  n ∈ coerced → ltb n (min_from lowest coerced) = false.
Proof.
  induction coerced as [|m rest IH]; intros lowest n Hlow Hall Hin.
  - by apply elem_of_nil in Hin.
  - simpl. apply Forall_cons in Hall as [Hm Hall]. rewrite Hm.
    apply elem_of_cons in Hin as [->|Hin].
    + destruct (ltb m lowest) eqn:Hml; [apply min_from_not_above|].
      destruct (ltb m (min_from lowest rest)) eqn:Hbelow; [|done].
      by rewrite <- (min_from_not_above rest lowest),
        (ltb_cotrans m lowest _ Hlow Hbelow Hml).
    + apply IH; [by destruct (ltb m lowest) | done | done].
Qed.

Lemma ltb_ToNumber_l x y : ltb (ToNumber x) y = ltb x y.
Proof. unfold ltb. by rewrite ToNumber_idem. Qed.

Lemma isNaN_ToNumber x : isNaN (ToNumber x) = isNaN x.
Proof. unfold isNaN. by rewrite ToNumber_idem. Qed.

(** [Math.min] is [NaN] when an argument is; otherwise no argument is
    below it, and it is one of the arguments, or +Infinity. *)
Lemma Math_min_spec args :
  (∀ n, n ∈ args → isNaN n = true → Math_min args = NaN)
  ∧ (Forall (λ n, isNaN n = false) args →
     (∀ n, n ∈ args → ltb n (Math_min args) = false)
     ∧ (Math_min args = Infinity false ∨ Math_min args ∈ ToNumber <$> args)).
Proof.
  unfold Math_min. change (map ToNumber args) with (ToNumber <$> args). split.
  - intros n Hin Hnan. apply (min_from_NaN _ _ (ToNumber n)).
    + by apply list_elem_of_fmap_2.
    + by rewrite isNaN_ToNumber.
  - intros Hall.
    assert (Hall' : Forall (λ n, isNaN n = false) (ToNumber <$> args)).
    { apply Forall_fmap. eapply Forall_impl; [exact Hall|].
      intros n Hn. simpl. by rewrite isNaN_ToNumber. }
    split; [|by apply min_from_member].
    intros n Hin. rewrite <- ltb_ToNumber_l.
    apply min_from_lower_bound; [done | done | by apply list_elem_of_fmap_2].
Qed.

Lemma sgn_Qcmult a b : sgn (Qcmult a b) = sgn_mul (sgn a) (sgn b).
Proof.
  unfold sgn, Qccompare, Qcmult.
  change (this (Q2Qc (a * b))) with (Qred (a * b)).
  rewrite (Qred_correct (a * b)).
  change (this (Q2Qc 0)) with 0%Q.
  destruct a as [[na da] Ha], b as [[nb db] Hb]; unfold Qcompare; simpl.
  rewrite !Z.mul_1_r. by destruct na, nb.
Qed.

Lemma mul_comm x y : (x * y)%num = (y * x)%num.
Proof.
  unfold mul.
  destruct (ToNumber x) as [| |s|a], (ToNumber y) as [| |t|b]; try done.
  - by rewrite xorb_comm.
  - by rewrite Qcmult_comm.
Qed.

Ltac case_sgn :=
  repeat (cbn [ToNumber sgn_mul negb xorb];
          try rewrite !sgn_Qcmult;
          match goal with
          | |- context [match sgn ?q with _ => _ end] => destruct (sgn q) eqn:?
          | |- context [sgn_mul (sgn ?q) _] => destruct (sgn q) eqn:?
          | |- context [sgn_mul _ (sgn ?q)] => destruct (sgn q) eqn:?
          end).

Lemma mul_assoc x y z : (x * (y * z))%num = (x * y * z)%num.
Proof.
  unfold mul.
  destruct (ToNumber x) as [| |s|a], (ToNumber y) as [| |t|b],
    (ToNumber z) as [| |u|c];
    case_sgn; cbn [ToNumber negb xorb]; try done;
    repeat match goal with s : bool |- _ => destruct s end; try done.
  by rewrite Qcmult_assoc.
Qed.

(** Scaling two numbers by a common factor keeps their cross products
    equal. *)
Lemma mul_cross w h s : (w * s * h)%num = (h * s * w)%num.
Proof.
  rewrite <- (mul_assoc w s h), (mul_comm s h), (mul_comm w (h * s)%num).
  done.
Qed.

End NumberFacts.

(** Closes goals between concrete numbers and structures of them: both
    sides are evaluated and rationals are compared by their reduced form. *)
Ltac num_eq :=
  vm_compute;
  repeat match goal with
  | |- Finite _ = Finite _ => apply f_equal, Qc_is_canon; reflexivity
  | |- _ = _ => reflexivity
  | |- _ = _ => f_equal
  | |- _ ∧ _ => split
  end.

(** ** The frame registry and [SetCurrentFrame] *)

Section Registry.

Implicit Types this : ComicBookPage.
Implicit Types areas : gmap string ComicFrame.t.

(** Reading the registry touches no field but its cache. *)
Lemma comicAreas_fields this :
  let this' := (comicAreas this).2 in
  document this' = document this ∧ engine this' = engine this
  ∧ animeInstance this' = animeInstance this
  ∧ _currentFrame this' = _currentFrame this
  ∧ _canvasSize this' = _canvasSize this ∧ _duration this' = _duration this.
Proof. unfold comicAreas. by destruct (_areas this). Qed.

Lemma comicAreas_cached this : _areas (comicAreas this).2 = Some (comicAreas this).1.
Proof. unfold comicAreas. by destruct (_areas this) eqn:H. Qed.

Lemma comicAreas_again this : comicAreas (comicAreas this).2 = comicAreas this.
Proof.
  unfold comicAreas at 1. rewrite comicAreas_cached. by destruct (comicAreas this).
Qed.

(** Every key written by the loop is the id of the element as it stands,
    alone or after "#". *)
Lemma register_area_lookup areas area key :
  register_area areas area !! key =
    if decide (String "#" (div_id area) = key) then Some (extractComicFrame area)
    else if decide (div_id area = key) then Some (extractComicFrame area)
    else areas !! key.
Proof. unfold register_area. by rewrite !lookup_insert. Qed.

Lemma fold_register_area_None divs : ∀ areas key,
  areas !! key = None →
  (∀ area, area ∈ divs → key ≠ div_id area ∧ key ≠ String "#" (div_id area)) →
  fold_left register_area divs areas !! key = None.
Proof.
  induction divs as [|area divs IH]; intros areas key Hnone Hkeys; simpl; [done|].
  apply IH.
  - rewrite register_area_lookup.
    destruct (Hkeys area) as [? ?]; [by left|].
    repeat case_decide; congruence.
  - intros a Ha. apply Hkeys. by right.
Qed.

Lemma fold_register_area_last divs : ∀ areas area,
  let areas' := fold_left register_area (divs ++ [area]) areas in
  areas' !! div_id area = Some (extractComicFrame area)
  ∧ areas' !! String "#" (div_id area) = Some (extractComicFrame area).
Proof.
  intros areas area. simpl. rewrite fold_left_app. simpl.
  rewrite !register_area_lookup. split; repeat case_decide; congruence.
Qed.

(** A key that is the id of no element, with or without "#", is not in
    the registry. *)
Lemma comicAreas_lookup_None this key :
  _areas this = None →
  key ≠ img_id (document this) → key ≠ String "#" (img_id (document this)) →
  (∀ area, area ∈ body_divs (document this) →
           key ≠ div_id area ∧ key ≠ String "#" (div_id area)) →
  (comicAreas this).1 !! key = None.
Proof.
  intros Hareas Himg Himg' Hdivs. unfold comicAreas. rewrite Hareas. simpl.
  apply fold_register_area_None; [|done].
  rewrite !lookup_insert. repeat case_decide; try congruence. apply lookup_empty.
Qed.

(** A request for a key the registry lacks ends after the lookup. *)
Lemma SetCurrentFrame_None this id duration :
  (comicAreas this).1 !! toLocaleLowerCase id = None →
  SetCurrentFrame this id duration = (comicAreas this).2.
Proof.
  intros Hnone. unfold SetCurrentFrame.
  destruct (comicAreas this) as [areas this1]. simpl in Hnone. by rewrite Hnone.
Qed.

(** A request for a key the registry holds stores the frame found and the
    duration, and renders. *)
Lemma SetCurrentFrame_Some this id duration frame :
  (comicAreas this).1 !! toLocaleLowerCase id = Some frame →
  SetCurrentFrame this id duration =
    renderCurrentComicFrame (set_current (comicAreas this).2 (Some frame) duration).
Proof.
  intros Hsome. unfold SetCurrentFrame.
  pose proof (comicAreas_again this) as Hagain.
  destruct (comicAreas this) as [areas this1]. simpl in *.
  rewrite Hsome, Hagain. by rewrite Hsome.
Qed.

(** An element whose id is in lower case is found under any casing. *)
Example lowercase_id_is_found :
  _currentFrame (activated tall_document "#FrAmE1" (ofZ 3000)) = Some tall_frame
  ∧ _currentFrame (activated tall_document "FRAME1" (ofZ 3000)) = Some tall_frame.
Proof. split; num_eq. Qed.

(** C3, on an element whose id has a capital: the registry holds the id
    as written, "Frame1" and "#Frame1", and nothing under the lowercased
    keys "frame1" and "#frame1"; [SetCurrentFrame] lowercases its argument,
    so the frame is found under no casing of its id, not even the id
    itself, and the request does nothing. *)
Theorem capital_id_is_not_found :
  let this := new_ComicBookPage capital_document in
  let areas := (comicAreas this).1 in
  is_Some (areas !! "Frame1") ∧ is_Some (areas !! "#Frame1")
  ∧ toLocaleLowerCase "Frame1" = "frame1"
  ∧ areas !! "frame1" = None ∧ areas !! "#frame1" = None
  ∧ SetCurrentFrame this "Frame1" (ofZ 3000) = (comicAreas this).2
  ∧ SetCurrentFrame this "#FRAME1" (ofZ 3000) = (comicAreas this).2
  ∧ _currentFrame (SetCurrentFrame this "Frame1" (ofZ 3000)) = None
  ∧ engine (SetCurrentFrame this "Frame1" (ofZ 3000)) = [].
Proof.
  assert (Hnone : ∀ key, In key ["frame1"; "#frame1"] →
            (comicAreas (new_ComicBookPage capital_document)).1 !! key = None).
  { intros key Hkey. apply comicAreas_lookup_None; [done| | |].
    - simpl in Hkey. intros ->. vm_compute in Hkey. intuition discriminate.
    - simpl in Hkey. intros ->. vm_compute in Hkey. intuition discriminate.
    - intros area Harea. vm_compute in Harea.
      apply list_elem_of_singleton in Harea as ->.
      simpl in Hkey. split; intros ->; simpl in Hkey; intuition discriminate. }
  cbv zeta. repeat apply conj.
  - by eexists; vm_compute.
  - by eexists; vm_compute.
  - reflexivity.
  - apply Hnone. simpl. tauto.
  - apply Hnone. simpl. tauto.
  - apply SetCurrentFrame_None, Hnone. simpl. tauto.
  - apply SetCurrentFrame_None, Hnone. simpl. tauto.
  - rewrite SetCurrentFrame_None by (apply Hnone; simpl; tauto).
    by destruct (comicAreas_fields (new_ComicBookPage capital_document))
      as (_ & _ & _ & -> & _).
  - rewrite SetCurrentFrame_None by (apply Hnone; simpl; tauto).
    by destruct (comicAreas_fields (new_ComicBookPage capital_document))
      as (_ & -> & _).
Qed.

(** C6: when the lowercased id is not a key of the registry,
    [SetCurrentFrame] keeps the current frame and the duration, sends
    nothing to the tween engine and changes neither the document nor the
    canvas size; the component is left as a read of the registry leaves
    it. *)
Theorem SetCurrentFrame_unknown_id this id duration :
  (comicAreas this).1 !! toLocaleLowerCase id = None →
  let this' := SetCurrentFrame this id duration in
  _currentFrame this' = _currentFrame this ∧ _duration this' = _duration this
  ∧ engine this' = engine this ∧ animeInstance this' = animeInstance this
  ∧ document this' = document this ∧ _canvasSize this' = _canvasSize this
  ∧ this' = (comicAreas this).2.
Proof.
  intros Hnone. cbv zeta. rewrite (SetCurrentFrame_None this id duration Hnone).
  pose proof (comicAreas_fields this) as Hfields. cbv zeta in Hfields. tauto.
Qed.

Lemma SetCurrentFrame_unknown_id_witness :
  (comicAreas (new_ComicBookPage tall_document)).1 !! toLocaleLowerCase "Nowhere" = None
  ∧ _currentFrame (SetCurrentFrame (new_ComicBookPage tall_document) "Nowhere" (ofZ 3000)) = None
  ∧ engine (SetCurrentFrame (new_ComicBookPage tall_document) "Nowhere" (ofZ 3000)) = [].
Proof.
  assert (H : (comicAreas (new_ComicBookPage tall_document)).1
                !! toLocaleLowerCase "Nowhere" = None) by (vm_compute; reflexivity).
  split; [exact H|].
  destruct (SetCurrentFrame_unknown_id
              (new_ComicBookPage tall_document) "Nowhere" (ofZ 3000) H)
    as (Hf & _ & He & _).
  split; [rewrite Hf | rewrite He]; reflexivity.
Defined.

End Registry.

(** ** The order of the doubles *)

Section FloatOrder.

Implicit Types x y z : spec_float.
Implicit Types a b c : float.

Ltac compare_cases :=
  repeat match goal with
  | |- context [PosDef.Pos.compare_cont Eq ?a ?b] =>
      change (PosDef.Pos.compare_cont Eq a b) with (Pos.compare a b)
  | H : context [PosDef.Pos.compare_cont Eq ?a ?b] |- _ =>
      change (PosDef.Pos.compare_cont Eq a b) with (Pos.compare a b) in H
  end;
  repeat match goal with
  | H : context [(?a ?= ?b)%Z] |- _ => destruct (Z.compare_spec a b)
  | |- context [(?a ?= ?b)%Z] => destruct (Z.compare_spec a b)
  | H : context [(?a ?= ?b)%positive] |- _ => destruct (Pos.compare_spec a b)
  | |- context [(?a ?= ?b)%positive] => destruct (Pos.compare_spec a b)
  end.

Lemma SFltb_irrefl x : SFltb x x = false.
Proof.
  unfold SFltb, SFcompare. destruct x as [[]|[]| |[] m e]; try done;
    compare_cases; simpl; try done; lia.
Qed.

Lemma SFltb_asym x y : SFltb x y = true → SFltb y x = false.
Proof.
  unfold SFltb, SFcompare.
  destruct x as [[]|[]| |[] mx ex], y as [[]|[]| |[] my ey]; try done;
    intros H; compare_cases; simpl in *; try done; lia.
Qed.

Lemma SFltb_trans x y z : SFltb x y = true → SFltb y z = true → SFltb x z = true.
Proof.
  unfold SFltb, SFcompare.
  destruct x as [[]|[]| |[] mx ex], y as [[]|[]| |[] my ey], z as [[]|[]| |[] mz ez];
    try done; intros H1 H2; compare_cases; simpl in *; try done; lia.
Qed.

Lemma SFeqb_refl x : x ≠ S754_nan → SFeqb x x = true.
Proof.
  unfold SFeqb, SFcompare. destruct x as [[]|[]| |[] m e]; try done; intros _;
    compare_cases; simpl; try done; lia.
Qed.

(** Two doubles, neither of them [NaN], are comparable. *)
Lemma SFleb_total x y :
  x ≠ S754_nan → y ≠ S754_nan → SFltb y x = false → SFleb x y = true.
Proof.
  unfold SFltb, SFleb, SFcompare.
  destruct x as [[]|[]| |[] mx ex], y as [[]|[]| |[] my ey]; try done;
    intros _ _ H; compare_cases; simpl in *; try done; lia.
Qed.

Lemma is_nan_false a : is_nan a = false ↔ Prim2SF a ≠ S754_nan.
Proof.
  unfold is_nan. rewrite FloatAxioms.eqb_spec. split.
  - intros H Hnan. by rewrite Hnan in H.
  - intros H. by rewrite SFeqb_refl.
Qed.

Lemma float_ltb_irrefl a : (a <? a)%float = false.
Proof. rewrite FloatAxioms.ltb_spec. apply SFltb_irrefl. Qed.

Lemma float_ltb_asym a b : (a <? b)%float = true → (b <? a)%float = false.
Proof. rewrite !FloatAxioms.ltb_spec. apply SFltb_asym. Qed.

Lemma float_ltb_trans a b c :
  (a <? b)%float = true → (b <? c)%float = true → (a <? c)%float = true.
Proof. rewrite !FloatAxioms.ltb_spec. apply SFltb_trans. Qed.

Lemma float_leb_total a b :
  is_nan a = false → is_nan b = false → (b <? a)%float = false → (a <=? b)%float = true.
Proof.
  rewrite !is_nan_false, FloatAxioms.ltb_spec, FloatAxioms.leb_spec.
  apply SFleb_total.
Qed.

Lemma SFleb_not_ltb x y : SFleb x y = true → SFltb y x = false.
Proof.
  unfold SFltb, SFleb, SFcompare.
  destruct x as [[]|[]| |[] mx ex], y as [[]|[]| |[] my ey]; try done;
    intros H; compare_cases; simpl in *; try done; lia.
Qed.

Lemma float_leb_not_ltb a b : (a <=? b)%float = true → (b <? a)%float = false.
Proof. rewrite FloatAxioms.ltb_spec, FloatAxioms.leb_spec. apply SFleb_not_ltb. Qed.

Lemma is_negative_zero_spec a :
  Binary64.is_negative_zero a = true → Prim2SF a = S754_zero true.
Proof.
  unfold Binary64.is_negative_zero. rewrite FloatAxioms.classify_spec.
  unfold SF64classify, SFclassify.
  destruct (Prim2SF a) as [[]|[]| |[] m e]; try done; by destruct (_ =? _)%Z.
Qed.

Lemma is_positive_zero_spec a :
  Binary64.is_positive_zero a = true → Prim2SF a = S754_zero false.
Proof.
  unfold Binary64.is_positive_zero. rewrite FloatAxioms.classify_spec.
  unfold SF64classify, SFclassify.
  destruct (Prim2SF a) as [[]|[]| |[] m e]; try done; by destruct (_ =? _)%Z.
Qed.

(** [Math.min(3, a, b)] in doubles: [NaN] when [a] or [b] is; otherwise a
    number that is at most 3, at most [a], at most [b], and one of the
    three. *)
Lemma Binary64_Math_min_3 a b :
  let scale := Binary64.Math_min [3%float; a; b] in
  if is_nan a || is_nan b then scale = nan
  else is_nan scale = false
       ∧ (scale <=? 3)%float = true ∧ (scale <=? a)%float = true
       ∧ (scale <=? b)%float = true
       ∧ (scale = 3%float ∨ scale = a ∨ scale = b).
Proof.
  cbv zeta. unfold Binary64.Math_min. cbn [Binary64.min_from].
  change (is_nan 3) with false.
  change (Binary64.is_negative_zero 3) with false.
  change (3 <? infinity)%float with true.
  change (Binary64.is_positive_zero 3) with false.
  cbn [andb]. rewrite andb_false_r.
  destruct (is_nan a) eqn:Ha; [done|].
  destruct (is_nan b) eqn:Hb; [done|]. cbn [orb].
  assert (H3 : is_nan 3 = false) by reflexivity.
  set (lowest := if (a <? 3)%float then a else 3%float).
  assert (Hlowest : is_nan lowest = false ∧ (3 <? lowest)%float = false
                    ∧ (a <? lowest)%float = false
                    ∧ (lowest = 3%float ∨ lowest = a)).
  { unfold lowest. destruct (a <? 3)%float eqn:Ha3.
    - repeat apply conj;
        [done | by apply float_ltb_asym | apply float_ltb_irrefl | by right].
    - repeat apply conj; [done | apply float_ltb_irrefl | done | by left]. }
  destruct Hlowest as (Hl & Hl3 & Hla & Hlcases).
  destruct (Binary64.is_negative_zero b && Binary64.is_positive_zero lowest) eqn:Hzero.
  - apply andb_true_iff in Hzero as [Hbz Hlz].
    apply is_negative_zero_spec in Hbz. apply is_positive_zero_spec in Hlz.
    destruct Hlcases as [Hl3'|Hl_a]; [by rewrite Hl3' in Hlz|].
    rewrite Hl_a in Hlz.
    repeat apply conj; [done | | | | by right; right].
    + apply float_leb_total; [done | done |]. by rewrite FloatAxioms.ltb_spec, Hbz.
    + apply float_leb_total; [done | done |].
      by rewrite FloatAxioms.ltb_spec, Hbz, Hlz.
    + apply float_leb_total; [done | done | apply float_ltb_irrefl].
  - clear Hzero. destruct (b <? lowest)%float eqn:Hbl.
    + repeat apply conj; [done | | | | by right; right];
        (apply float_leb_total; [done | done |]).
      * destruct (3 <? b)%float eqn:H3b; [|done].
        by rewrite (float_ltb_trans _ _ _ H3b Hbl) in Hl3.
      * destruct (a <? b)%float eqn:Hab; [|done].
        by rewrite (float_ltb_trans _ _ _ Hab Hbl) in Hla.
      * apply float_ltb_irrefl.
    + repeat apply conj;
        [done | | | | destruct Hlcases; [by left | by right; left] ];
        by apply float_leb_total.
Qed.

End FloatOrder.

(** ** Placement and scale *)

Section Placement.

Implicit Types this : ComicBookPage.
Implicit Types frame : ComicFramePosition.t.

Lemma frameScale_min_from this frame :
  frameScale this frame =
    min_from (ofZ 3)
      (map ToNumber
         [(paddedClientWidth this / ComicFramePosition.width frame)%num;
          (paddedClientHeight this / ComicFramePosition.height frame)%num]).
Proof. reflexivity. Qed.

Lemma ToNumber_div x y : ToNumber (x / y)%num = (x / y)%num.
Proof.
  unfold div.
  destruct (ToNumber x) as [| |s|a], (ToNumber y) as [| |t|b]; try done;
    cbn [ToNumber]; by repeat case_match.
Qed.

(** C5: the scale of [calcFramePositionAndSize] is the least of 3, the
    padded container width over the frame width and the padded container
    height over the frame height, the padding being 10 on each side.  It is
    [NaN] when one of the two quotients is; otherwise it is above none of
    the three and equal to one of them.  The returned size is the canvas
    size times that scale, and the scale never exceeds 3, for any frame and
    container whatever.  The same holds of the scale computed in doubles,
    with the rounded quotients. *)
Theorem scale_is_min_and_at_most_3 this frame :
  let byWidth := ((clientWidth this - ofZ 20) / ComicFramePosition.width frame)%num in
  let byHeight := ((clientHeight this - ofZ 20) / ComicFramePosition.height frame)%num in
  let scale := frameScale this frame in
  scale = Math_min [ofZ 3; byWidth; byHeight]
  ∧ (if isNaN byWidth || isNaN byHeight then scale = NaN
     else ltb (ofZ 3) scale = false
          ∧ ltb byWidth scale = false
          ∧ ltb byHeight scale = false
          ∧ (scale = ofZ 3 ∨ scale = byWidth ∨ scale = byHeight))
  ∧ ComicFrame.width (calcFramePositionAndSize this frame) =
      (CanvasSize.width (_canvasSize this) * scale)%num
  ∧ ComicFrame.height (calcFramePositionAndSize this frame) =
      (CanvasSize.height (_canvasSize this) * scale)%num
  ∧ gtb scale (ofZ 3) = false
  ∧ (∀ clientWidth clientHeight position,
       let byWidth := ((clientWidth - 20) / Binary64.frame_width position)%float in
       let byHeight := ((clientHeight - 20) / Binary64.frame_height position)%float in
       let scale := Binary64.frameScale clientWidth clientHeight position in
       scale = Binary64.Math_min [3%float; byWidth; byHeight]
       ∧ (3 <? scale)%float = false
       ∧ (if is_nan byWidth || is_nan byHeight then scale = nan
          else (scale <=? 3)%float = true
               ∧ (scale <=? byWidth)%float = true
               ∧ (scale <=? byHeight)%float = true
               ∧ (scale = 3%float ∨ scale = byWidth ∨ scale = byHeight))).
Proof.
  cbv zeta.
  assert (Hdoubles : ∀ clientWidth clientHeight position,
    let byWidth := ((clientWidth - 20) / Binary64.frame_width position)%float in
    let byHeight := ((clientHeight - 20) / Binary64.frame_height position)%float in
    let scale := Binary64.frameScale clientWidth clientHeight position in
    scale = Binary64.Math_min [3%float; byWidth; byHeight]
    ∧ (3 <? scale)%float = false
    ∧ (if is_nan byWidth || is_nan byHeight then scale = nan
       else (scale <=? 3)%float = true
            ∧ (scale <=? byWidth)%float = true
            ∧ (scale <=? byHeight)%float = true
            ∧ (scale = 3%float ∨ scale = byWidth ∨ scale = byHeight))).
  { intros clientWidth clientHeight position. cbv zeta.
    set (byWidth := ((clientWidth - 20) / Binary64.frame_width position)%float).
    set (byHeight := ((clientHeight - 20) / Binary64.frame_height position)%float).
    change (Binary64.frameScale clientWidth clientHeight position)
      with (Binary64.Math_min [3%float; byWidth; byHeight]).
    pose proof (Binary64_Math_min_3 byWidth byHeight) as Hmin. cbv zeta in Hmin.
    split; [reflexivity|].
    destruct (is_nan byWidth || is_nan byHeight).
    - rewrite Hmin. split; reflexivity.
    - destruct Hmin as (Hnan & H3 & Hw & Hh & Hcases).
      split; [by apply float_leb_not_ltb | done]. }

  set (byWidth := ((clientWidth this - ofZ 20) / ComicFramePosition.width frame)%num).
  set (byHeight := ((clientHeight this - ofZ 20) / ComicFramePosition.height frame)%num).
  assert (Hscale : frameScale this frame = Math_min [ofZ 3; byWidth; byHeight])
    by reflexivity.
  split; [exact Hscale|].
  split; [|repeat apply conj; try reflexivity; [|exact Hdoubles];
           unfold gtb; rewrite frameScale_min_from; apply min_from_not_above].
  clear Hdoubles. rewrite Hscale.
  destruct (Math_min_spec [ofZ 3; byWidth; byHeight]) as [Hnan Hmin].
  assert (Hin3 : ofZ 3 ∈ [ofZ 3; byWidth; byHeight]) by left.
  assert (Hinw : byWidth ∈ [ofZ 3; byWidth; byHeight]) by (right; left).
  assert (Hinh : byHeight ∈ [ofZ 3; byWidth; byHeight]) by (right; right; left).
  destruct (isNaN byWidth) eqn:Hw; [by apply (Hnan byWidth)|].
  destruct (isNaN byHeight) eqn:Hh; [by apply (Hnan byHeight)|].
  cbn [orb].
  assert (Hall : Forall (λ n, isNaN n = false) [ofZ 3; byWidth; byHeight]).
  { constructor; [done|]. constructor; [exact Hw|]. constructor; [exact Hh|].
    constructor. }
  destruct (Hmin Hall) as [Hbelow Hmember].
  pose proof (Hbelow (ofZ 3) Hin3) as H3.
  repeat apply conj; [exact H3 | by apply Hbelow | by apply Hbelow |].
  destruct Hmember as [Hinf|Hin]; [by rewrite Hinf in H3|].
  cbn [fmap list_fmap] in Hin. unfold byWidth, byHeight in Hin.
  rewrite !ToNumber_div in Hin. fold byWidth byHeight in Hin.
  apply elem_of_cons in Hin as [Hin|Hin]; [by left|].
  apply elem_of_cons in Hin as [Hin|Hin]; [by right; left|].
  apply elem_of_cons in Hin as [Hin|Hin]; [by right; right|].
  by apply elem_of_nil in Hin.
Qed.

(** C7: on each axis the centering offset is half of what the scaled frame
    leaves of the padded container when it is strictly smaller, and 0
    otherwise; the returned top and left are that offset, plus the negated
    scaled origin of the frame, plus the padding of 10; and a frame whose
    scaled size is exactly the padded container on both axes gets the
    offset 0 on both. *)
Theorem centering_offsets this frame :
  let scale := frameScale this frame in
  let availableWidth := (clientWidth this - ofZ 20)%num in
  let availableHeight := (clientHeight this - ofZ 20)%num in
  let scaledFrameWidth := (ComicFramePosition.width frame * scale)%num in
  let scaledFrameHeight := (ComicFramePosition.height frame * scale)%num in
  xCentering this frame =
    (if ltb scaledFrameWidth availableWidth
     then ((availableWidth - scaledFrameWidth) / ofZ 2)%num else ofZ 0)
  ∧ yCentering this frame =
    (if ltb scaledFrameHeight availableHeight
     then ((availableHeight - scaledFrameHeight) / ofZ 2)%num else ofZ 0)
  ∧ ComicFrame.top (calcFramePositionAndSize this frame) =
      (yCentering this frame
       + - (Point.y (ComicFramePosition.topLeft frame) * scale) + ofZ 10)%num
  ∧ ComicFrame.left (calcFramePositionAndSize this frame) =
      (xCentering this frame
       + - (Point.x (ComicFramePosition.topLeft frame) * scale) + ofZ 10)%num
  ∧ (scaledFrameWidth = availableWidth → scaledFrameHeight = availableHeight →
     xCentering this frame = ofZ 0 ∧ yCentering this frame = ofZ 0).
Proof.
  cbv zeta. repeat apply conj; try reflexivity.
  intros Hw Hh. split.
  - unfold xCentering.
    change (paddedClientWidth this) with (clientWidth this - ofZ 20)%num.
    by rewrite Hw, ltb_irrefl.
  - unfold yCentering.
    change (paddedClientHeight this) with (clientHeight this - ofZ 20)%num.
    by rewrite Hh, ltb_irrefl.
Qed.

Lemma centering_offsets_witness :
  let this := new_ComicBookPage tall_document in
  let frame := makeFramePosition fitting_frame in
  (ComicFramePosition.width frame * frameScale this frame)%num
    = (clientWidth this - ofZ 20)%num
  ∧ (ComicFramePosition.height frame * frameScale this frame)%num
    = (clientHeight this - ofZ 20)%num
  ∧ xCentering this frame = ofZ 0 ∧ yCentering this frame = ofZ 0.
Proof.
  cbv zeta.
  assert (Hw : (ComicFramePosition.width (makeFramePosition fitting_frame)
                * frameScale (new_ComicBookPage tall_document)
                    (makeFramePosition fitting_frame))%num
               = (clientWidth (new_ComicBookPage tall_document) - ofZ 20)%num)
    by num_eq.
  assert (Hh : (ComicFramePosition.height (makeFramePosition fitting_frame)
                * frameScale (new_ComicBookPage tall_document)
                    (makeFramePosition fitting_frame))%num
               = (clientHeight (new_ComicBookPage tall_document) - ofZ 20)%num)
    by num_eq.
  split; [exact Hw|]. split; [exact Hh|].
  exact (proj2 (proj2 (proj2 (proj2
    (centering_offsets (new_ComicBookPage tall_document)
       (makeFramePosition fitting_frame))))) Hw Hh).
Defined.

(** C10, as the code has it.  In doubles, the returned width and height
    are the canvas width and the canvas height, each multiplied by one and
    the same scale, the least of 3 and the two quotients, and each product
    rounded.  Before rounding the two cross products, returned width by
    canvas height and returned height by canvas width, are equal (both
    [NaN] when the scale is); rounded they can differ in their last digits,
    as for a page of 1000 by 1500 and a frame of 100 by 182 in a container
    of 500 by 500. *)
Theorem placement_keeps_aspect_ratio :
  (∀ clientWidth clientHeight canvasSize position,
     let placed :=
       Binary64.calcFramePositionAndSize clientWidth clientHeight canvasSize position in
     let scale :=
       Binary64.Math_min
         [3%float;
          ((clientWidth - 20) / Binary64.frame_width position)%float;
          ((clientHeight - 20) / Binary64.frame_height position)%float] in
     Binary64.width placed = (Binary64.canvas_width canvasSize * scale)%float
     ∧ Binary64.height placed = (Binary64.canvas_height canvasSize * scale)%float)
  ∧ (∀ this frame,
       let placed := calcFramePositionAndSize this frame in
       let canvas := _canvasSize this in
       ComicFrame.width placed = (CanvasSize.width canvas * frameScale this frame)%num
       ∧ ComicFrame.height placed = (CanvasSize.height canvas * frameScale this frame)%num
       ∧ (ComicFrame.width placed * CanvasSize.height canvas)%num
         = (ComicFrame.height placed * CanvasSize.width canvas)%num)
  ∧ (let placed := Binary64.calcFramePositionAndSize 500 500 wide_canvas slim_frame in
     Binary64.width placed = 2637.3626373626375%float
     ∧ Binary64.height placed = 3956.0439560439559%float
     ∧ (Binary64.width placed * 1500)%float = 3956043.9560439563%float
     ∧ (Binary64.height placed * 1000)%float = 3956043.9560439559%float).
Proof.
  split; [|split].
  - intros clientWidth clientHeight canvasSize position. cbv zeta. split; reflexivity.
  - intros this frame. cbv zeta. repeat apply conj; try reflexivity.
    cbn [calcFramePositionAndSize ComicFrame.width ComicFrame.height].
    apply mul_cross.
  - cbv zeta. repeat apply conj; vm_compute; reflexivity.
Qed.

(** C10 as stated fails in doubles: for the page of 1000 by 1500 and the
    frame of 100 by 182 in a container of 500 by 500, the returned width
    times the canvas height is 3956043.9560439563 and the returned height
    times the canvas width is 3956043.9560439559. *)
Lemma aspect_ratio_counterexample :
  ¬ (∀ clientWidth clientHeight canvasSize position,
       let placed :=
         Binary64.calcFramePositionAndSize clientWidth clientHeight canvasSize position in
       (Binary64.width placed * Binary64.canvas_height canvasSize)%float
       = (Binary64.height placed * Binary64.canvas_width canvasSize)%float).
Proof.
  intros H. specialize (H 500%float 500%float wide_canvas slim_frame).
  cbv zeta in H.
  apply (f_equal (λ x, PrimFloat.eqb x 3956043.9560439559%float)) in H.
  vm_compute in H. discriminate.
Qed.

(** ** The panning decision *)

(** C2, as the code decides it: at the double boundary, where the ratio of
    height to width is exactly the panning factor and the height is exactly
    the container height times the panning factor, the ratio test (>=)
    passes, the height test (>) fails, and there is no vertical panning. *)
Theorem double_boundary_does_not_pan this frame :
  (ComicFramePosition.height frame / ComicFramePosition.width frame)%num
    = panningFactor →
  ComicFramePosition.height frame = (clientHeight this * panningFactor)%num →
  geb (ComicFramePosition.height frame / ComicFramePosition.width frame)%num
      panningFactor = true
  ∧ gtb (ComicFramePosition.height frame) (clientHeight this * panningFactor)%num
    = false
  ∧ shouldDoVerticalPanning this frame = false.
Proof.
  intros Hratio Hheight. unfold shouldDoVerticalPanning.
  rewrite Hratio. rewrite Hheight at 1 2. unfold gtb. rewrite ltb_irrefl.
  repeat apply conj; reflexivity.
Qed.

Lemma boundary_frame_on_boundary :
  let this := new_ComicBookPage tall_document in
  let frame := makeFramePosition boundary_frame in
  (ComicFramePosition.height frame / ComicFramePosition.width frame)%num
    = panningFactor
  ∧ ComicFramePosition.height frame = (clientHeight this * panningFactor)%num.
Proof. cbv zeta. split; num_eq. Qed.

Lemma double_boundary_does_not_pan_witness :
  shouldDoVerticalPanning (new_ComicBookPage tall_document)
    (makeFramePosition boundary_frame) = false.
Proof.
  exact (proj2 (proj2
    (double_boundary_does_not_pan (new_ComicBookPage tall_document)
       (makeFramePosition boundary_frame)
       (proj1 boundary_frame_on_boundary) (proj2 boundary_frame_on_boundary)))).
Defined.

(** C2 as stated fails: the frame of 500 by 875 in a container of height
    500 is on the double boundary and is not panned over. *)
Lemma double_boundary_counterexample :
  ¬ (∀ this frame,
       (ComicFramePosition.height frame / ComicFramePosition.width frame)%num
         = panningFactor →
       ComicFramePosition.height frame = (clientHeight this * panningFactor)%num →
       shouldDoVerticalPanning this frame = true).
Proof.
  intros H.
  specialize (H (new_ComicBookPage tall_document) (makeFramePosition boundary_frame)
                (proj1 boundary_frame_on_boundary) (proj2 boundary_frame_on_boundary)).
  vm_compute in H. discriminate.
Qed.

End Placement.

(** ** Keyframes and rendering *)

Section Rendering.

Implicit Types this : ComicBookPage.
Implicit Types f : ComicFrame.t.

(** Reading the name for the log touches the instance number and the
    static counter only. *)
Lemma cls_fields this :
  document (cls this) = document this ∧ engine (cls this) = engine this
  ∧ animeInstance (cls this) = animeInstance this ∧ _areas (cls this) = _areas this
  ∧ _currentFrame (cls this) = _currentFrame this
  ∧ _canvasSize (cls this) = _canvasSize this ∧ _duration (cls this) = _duration this
  ∧ _instance (cls this) = Some (instance this).1.
Proof. unfold cls, instance. by destruct (_instance this) eqn:Hi. Qed.

Lemma buildKeyframes_cls this f : buildKeyframes (cls this) f = buildKeyframes this f.
Proof. unfold cls, instance. by destruct (_instance this). Qed.

(** What a rendering sends to the engine when a frame and a duration are
    stored. *)
Lemma renderCurrentComicFrame_Some this f :
  _currentFrame this = Some f → is_nullish (_duration this) = false →
  renderCurrentComicFrame this = start_animation (cls this) (buildKeyframes this f).
Proof.
  intros Hf Hd. unfold renderCurrentComicFrame. cbv zeta.
  destruct (cls_fields this) as (_ & _ & _ & _ & -> & _ & -> & _).
  by rewrite Hf, Hd, buildKeyframes_cls.
Qed.


(** The keyframes, one by one. *)
Lemma buildKeyframes_cases this f :
  match panFramePositions this f with
  | None =>
      buildKeyframes this f =
        [keyframe (calcFramePositionAndSize this (makeFramePosition f))
           focusDuration (Some (ofZ 1))]
  | Some (pan, final) =>
      buildKeyframes this f =
        [keyframe (calcFramePositionAndSize this (makeFramePosition f))
           focusDuration (Some (ofZ 1));
         keyframe (calcFramePositionAndSize this pan) focusDuration None;
         keyframe (calcFramePositionAndSize this final)
           (nullish_coalesce (_duration this) (ofZ 0 - ofZ 2 * focusDuration)%num) None]
  end.
Proof.
  unfold buildKeyframes. by destruct (panFramePositions this f) as [[pan final]|].
Qed.


(** With panning and a stored duration, the last keyframe lasts the whole
    stored duration. *)
Lemma final_keyframe_duration this f positions d :
  panFramePositions this f = Some positions →
  _duration this = Some d → d ≠ null →
  AnimeAnimParams.duration <$> last (buildKeyframes this f) = Some d.
Proof.
  intros Hpan Hd Hnull. unfold buildKeyframes. rewrite Hpan, Hd.
  destruct positions as [pan final]. simpl. by destruct d.
Qed.

(** C1, evaluated on the page of 1000 by 2000 with its frame of 500 by
    1750 requested for 2000 ms: panning is active, and the three keyframes
    last 750, 750 and 2000 ms; the last one keeps the whole requested
    duration, where the requested duration less twice the focus duration
    is 500. *)
Theorem final_keyframe_lasts_whole_duration :
  let this := activated tall_document "#frame1" (ofZ 2000) in
  _currentFrame this = Some tall_frame ∧ _duration this = Some (ofZ 2000)
  ∧ is_Some (panFramePositions this tall_frame)
  ∧ engine this = [anime_remove; anime (buildKeyframes this tall_frame) easing]
  ∧ AnimeAnimParams.duration <$> buildKeyframes this tall_frame
    = [ofZ 750; ofZ 750; ofZ 2000]
  ∧ (ofZ 2000 - ofZ 2 * focusDuration)%num = ofZ 500.
Proof.
  cbv zeta. repeat apply conj.
  - num_eq.
  - num_eq.
  - by eexists; vm_compute.
  - num_eq.
  - num_eq.
  - num_eq.
Qed.

(** C4: every sequence of keyframes starts with a keyframe that lasts
    750 ms, sets the opacity to 1 and carries the placement of the whole
    requested frame, and a rendering with a stored frame and duration hands
    that sequence to the engine; on the page of 1000 by 2000 with the frame
    of 500 by 1750 at the origin in a container of 500 by 500, vertical
    panning is chosen, three keyframes are built, and the top of the last
    sub-frame is the top of the frame plus 1750 - 500 + 10 = 1260. *)
Theorem first_keyframe_and_tall_frame :
  (∀ this f,
     (∃ first rest,
        buildKeyframes this f = first :: rest
        ∧ AnimeAnimParams.duration first = ofZ 750
        ∧ AnimeAnimParams.opacity first = Some (ofZ 1)
        ∧ placed_at first (calcFramePositionAndSize this (makeFramePosition f)))
     ∧ (_currentFrame this = Some f → is_nullish (_duration this) = false →
        engine (renderCurrentComicFrame this) =
          (engine this ++ [anime_remove; anime (buildKeyframes this f) easing])%list))
  ∧ (let this := activated tall_document "#frame1" (ofZ 3000) in
     _canvasSize this = {| CanvasSize.height := ofZ 2000; CanvasSize.width := ofZ 1000 |}
     ∧ _currentFrame this = Some tall_frame
     ∧ clientWidth this = ofZ 500 ∧ clientHeight this = ofZ 500
     ∧ shouldDoVerticalPanning this (makeFramePosition tall_frame) = true
     ∧ length (buildKeyframes this tall_frame) = 3%nat
     ∧ AnimeAnimParams.duration <$> buildKeyframes this tall_frame
       = [ofZ 750; ofZ 750; ofZ 3000]
     ∧ AnimeAnimParams.opacity <$> buildKeyframes this tall_frame
       = [Some (ofZ 1); None; None]
     ∧ engine this = [anime_remove; anime (buildKeyframes this tall_frame) easing]
     ∧ ∃ pan final,
         panFramePositions this tall_frame = Some (pan, final)
         ∧ Point.y (ComicFramePosition.topLeft final)
           = (ComicFrame.top tall_frame + (ofZ 1750 - ofZ 500 + ofZ 10))%num
         ∧ Point.y (ComicFramePosition.topLeft final) = ofZ 1260).
Proof.
  split.
  - intros this f. split.
    + pose proof (buildKeyframes_cases this f) as Hcases.
      destruct (panFramePositions this f) as [[pan final]|];
        rewrite Hcases; eexists _, _; (split; [reflexivity|]); by repeat split.
    + intros Hf Hd. rewrite (renderCurrentComicFrame_Some this f Hf Hd).
      cbn [engine start_animation].
      by destruct (cls_fields this) as (_ & -> & _).
  - cbv zeta. repeat apply conj; try num_eq.
    eexists _, _. repeat apply conj.
    + vm_compute. reflexivity.
    + num_eq.
    + num_eq.
Qed.

Lemma first_keyframe_and_tall_frame_witness :
  let this := set_current (new_ComicBookPage tall_document) (Some tall_frame) (ofZ 3000) in
  _currentFrame this = Some tall_frame ∧ is_nullish (_duration this) = false
  ∧ engine (renderCurrentComicFrame this) =
      (engine this ++ [anime_remove; anime (buildKeyframes this tall_frame) easing])%list.
Proof.
  cbv zeta. split; [reflexivity|]. split; [reflexivity|].
  exact (proj2 (proj1 first_keyframe_and_tall_frame
                  (set_current (new_ComicBookPage tall_document) (Some tall_frame) (ofZ 3000))
                  tall_frame)
           eq_refl eq_refl).
Defined.




End Rendering.

(** ** Geometry extraction *)

Section Extraction.

Implicit Types this : ComicBookPage.
Implicit Types d : Document.

(** An integer is rounded to an integer or to an infinity. *)
Lemma to_double_cases z :
  to_double z = NaN ∨ (∃ negative, to_double z = Infinity negative)
  ∨ ∃ z', to_double z = ofZ z'.
Proof.
  unfold to_double. destruct (Z.abs z <=? 2 ^ 53)%Z; [by right; right; eexists|].
  destruct (binary_normalize 53 1024 z 0 false); eauto.
Qed.

Lemma to_double_small z : (Z.abs z ≤ 2 ^ 53)%Z → to_double z = ofZ z.
Proof. intros Hz. unfold to_double. by rewrite (proj2 (Z.leb_le _ _) Hz). Qed.

(** [parseInt] gives [NaN], an infinity or an integer. *)
Lemma parseInt_cases s :
  parseInt s = NaN ∨ (∃ negative, parseInt s = Infinity negative)
  ∨ ∃ z, parseInt s = ofZ z.
Proof.
  unfold parseInt.
  destruct (match trimStart s with
            | String "-" rest => ((-1)%Z, rest)
            | String "+" rest => (1%Z, rest)
            | _ => (1%Z, trimStart s)
            end) as [sign s'].
  destruct (leading_digits None s'); [apply to_double_cases | by left].
Qed.

Lemma style_number_cases style key :
  style_number style key = NaN ∨ (∃ negative, style_number style key = Infinity negative)
  ∨ ∃ z, style_number style key = ofZ z.
Proof.
  unfold style_number. destruct (String.eqb _ _); [by right; right; eexists|].
  apply parseInt_cases.
Qed.

(** The registry survives any change of the document once it is cached. *)
Lemma comicAreas_ignores_document this d :
  (comicAreas (set_document (comicAreas this).2 d)).1 = (comicAreas this).1.
Proof.
  unfold comicAreas at 1. cbn [_areas set_document]. by rewrite comicAreas_cached.
Qed.

(** What [extractCanvasSize] does on a document whose cache attribute is
    not set, or empty. *)
Lemma extractCanvasSize_unset d :
  img_dataset_CanvasSize d = None ∨ img_dataset_CanvasSize d = Some empty_text →
  extractCanvasSize d =
    (let frame := {| CanvasSize.height := style_number (img_style d) "height";
                     CanvasSize.width := style_number (img_style d) "width" |} in
     (frame, set_dataset_CanvasSize d (JSON_stringify frame))).
Proof. unfold extractCanvasSize. by intros [-> | ->]. Qed.

(** C8, as the code has it.  A second read of [comicAreas] returns the
    cached registry and leaves the component as it is, whatever the
    document has become in between.  An extraction of the canvas size on
    an image whose cache attribute holds a canvas size returns that size
    and leaves the document alone.  On an image whose attribute is not set
    or empty, the size is read from the style and written to the
    attribute, the rest of the document being kept, so that the next
    extraction returns what the cache spells; that is the very pair of the
    first extraction when each dimension is a finite number, and not a
    zero that the style writes with a minus sign. *)
Theorem extraction_is_cached :
  (∀ this, comicAreas (comicAreas this).2 = comicAreas this)
  ∧ (∀ this d,
       (comicAreas (set_document (comicAreas this).2 d)).1 = (comicAreas this).1)
  ∧ (∀ d o, img_dataset_CanvasSize d = Some (JSON_text o) →
            extractCanvasSize d = (JSON_parse o, d))
  ∧ (∀ d,
       img_dataset_CanvasSize d = None ∨ img_dataset_CanvasSize d = Some empty_text →
       let size := (extractCanvasSize d).1 in
       let d' := (extractCanvasSize d).2 in
       size = {| CanvasSize.height := style_number (img_style d) "height";
                 CanvasSize.width := style_number (img_style d) "width" |}
       ∧ img_dataset_CanvasSize d' = Some (JSON_text (JSON_stringify size))
       ∧ json_height (JSON_stringify size)
         = match CanvasSize.height size with Finite q => JSON_number q | _ => JSON_null end
       ∧ json_width (JSON_stringify size)
         = match CanvasSize.width size with Finite q => JSON_number q | _ => JSON_null end
       ∧ img_id d' = img_id d ∧ img_style d' = img_style d
       ∧ body_divs d' = body_divs d
       ∧ container_clientWidth d' = container_clientWidth d
       ∧ container_clientHeight d' = container_clientHeight d
       ∧ extractCanvasSize d' = (JSON_parse (JSON_stringify size), d')
       ∧ (survives_cache (img_style d) "height" →
          survives_cache (img_style d) "width" →
          extractCanvasSize d' = (size, d'))).
Proof.
  repeat apply conj.
  - apply comicAreas_again.
  - apply comicAreas_ignores_document.
  - intros d o Hcache. unfold extractCanvasSize. by rewrite Hcache.
  - intros d Hunset. cbv zeta. rewrite (extractCanvasSize_unset d Hunset).
    cbv zeta. cbn [fst snd].
    repeat apply conj; try reflexivity.
    intros (h & Hh & _) (w & Hw & _).
    unfold extractCanvasSize. cbn [img_dataset_CanvasSize set_dataset_CanvasSize].
    by rewrite Hh, Hw.
Qed.

Lemma extraction_is_cached_witness :
  let size := (extractCanvasSize tall_document).1 in
  let d' := (extractCanvasSize tall_document).2 in
  size = {| CanvasSize.height := ofZ 2000; CanvasSize.width := ofZ 1000 |}
  ∧ extractCanvasSize d' = (size, d').
Proof.
  cbv zeta. split; [num_eq|].
  refine (proj2 (proj2 (proj2 (proj2 (proj2 (proj2 (proj2 (proj2 (proj2 (proj2
    (proj2 (proj2 (proj2 extraction_is_cached)) tall_document (or_introl eq_refl)
    )))))))))) _ _).
  - exists (Q2Qc (inject_Z 2000)). split; [num_eq | discriminate].
  - exists (Q2Qc (inject_Z 1000)). split; [num_eq | discriminate].
Defined.

(** C8 as stated fails on an image whose style height is "auto": the first
    extraction reads the height [NaN], the cache holds [null] for it, and
    the second extraction returns [null]. *)
Lemma extraction_roundtrip_counterexample :
  ¬ (∀ d, (extractCanvasSize (extractCanvasSize d).2).1 = (extractCanvasSize d).1).
Proof.
  intros H. specialize (H auto_height_document).
  apply (f_equal CanvasSize.height) in H. vm_compute in H. discriminate.
Qed.

Example auto_height_extractions :
  (extractCanvasSize auto_height_document).1
    = {| CanvasSize.height := NaN; CanvasSize.width := ofZ 1000 |}
  ∧ (extractCanvasSize (extractCanvasSize auto_height_document).2).1
    = {| CanvasSize.height := null; CanvasSize.width := ofZ 1000 |}.
Proof. split; num_eq. Qed.

(** A width of 310 digits is beyond the doubles: it is read as +Infinity,
    cached as [null] and returned as [null] by the next extraction. *)
Example long_width_extractions :
  (extractCanvasSize long_width_document).1
    = {| CanvasSize.height := ofZ 2000; CanvasSize.width := Infinity false |}
  ∧ (extractCanvasSize (extractCanvasSize long_width_document).2).1
    = {| CanvasSize.height := ofZ 2000; CanvasSize.width := null |}.
Proof. split; num_eq. Qed.

(** An empty cache attribute is overwritten like one that is not set. *)
Example empty_cache_is_overwritten :
  extractCanvasSize (empty_cache_document)
    = extractCanvasSize tall_document.
Proof. reflexivity. Qed.

(** Beyond 2^53 the integers are rounded: 2^53 + 1 is read as 2^53. *)
Example parseInt_rounds :
  parseInt "9007199254740993" = ofZ 9007199254740992
  ∧ parseInt "-9007199254740995px" = ofZ (-9007199254740996)
  ∧ parseInt "9007199254740992" = ofZ 9007199254740992.
Proof. repeat apply conj; num_eq. Qed.

End Extraction.

(** ** Arithmetic on finite numbers *)

Section FiniteFacts.

Implicit Types a b c : Qc.

Lemma sgn_Eq a : sgn a = Eq ↔ a = Q2Qc 0.
Proof. unfold sgn. symmetry. apply Qceq_alt. Qed.

Lemma ltb_Finite_true a b : ltb (Finite a) (Finite b) = true ↔ (a < b)%Qc.
Proof.
  unfold ltb. cbn [ToNumber]. rewrite Qclt_alt.
  destruct (Qccompare a b); split; congruence.
Qed.

Lemma ltb_Finite_false a b : ltb (Finite a) (Finite b) = false ↔ (b <= a)%Qc.
Proof.
  rewrite <- not_true_iff_false, ltb_Finite_true. split.
  - apply Qcnot_lt_le.
  - intros Hle Hlt. by apply (Qcle_not_lt _ _ Hle).
Qed.

Lemma geb_Finite a b : geb (Finite a) (Finite b) = true ↔ (b <= a)%Qc.
Proof.
  unfold geb, isNaN. cbn [ToNumber orb]. rewrite negb_true_iff.
  apply ltb_Finite_false.
Qed.

(** A ratio and its inverse are not both at least 7/4. *)
Lemma Qc_ratio_exclusive a b :
  a ≠ Q2Qc 0 → b ≠ Q2Qc 0 →
  (Q2Qc (175 # 100) <= a / b)%Qc → (Q2Qc (175 # 100) <= b / a)%Qc → False.
Proof.
  intros Ha Hb Hab Hba.
  assert (Hpos : (Q2Qc 0 <= Q2Qc (175 # 100))%Qc) by done.
  assert (H1 : (Q2Qc (175 # 100) * Q2Qc (175 # 100) <= (a / b) * Q2Qc (175 # 100))%Qc)
    by (by apply Qcmult_le_compat_r).
  assert (H2 : ((a / b) * Q2Qc (175 # 100) <= (a / b) * (b / a))%Qc).
  { rewrite !(Qcmult_comm (a / b)). apply Qcmult_le_compat_r; [done|].
    by apply (Qcle_trans _ _ _ Hpos). }
  assert (Hone : ((a / b) * (b / a) = Q2Qc 1)%Qc) by (by field).
  rewrite Hone in H2. by pose proof (Qcle_trans _ _ _ H1 H2).
Qed.

End FiniteFacts.

(** ** More on the panning decision *)

Section PanningDecision.

Implicit Types this : ComicBookPage.
Implicit Types frame : ComicFramePosition.t.
Implicit Types h w : number.

Lemma ratio_tests_exclusive h w :
  geb (h / w)%num panningFactor = true → geb (w / h)%num panningFactor = false.
Proof.
  unfold div, panningFactor, ofQ.
  pose proof (ToNumber_not_null h) as Hh. pose proof (ToNumber_not_null w) as Hw.
  destruct (ToNumber h) as [| |s|a], (ToNumber w) as [| |t|b]; try done.
  assert (Hzero : ∀ c, geb (Finite (Q2Qc 0 / c)) (Finite (Q2Qc (175 # 100))) = false).
  { intros c. apply not_true_iff_false. rewrite geb_Finite.
    unfold Qcdiv. rewrite Qcmult_0_l. by intros ?. }
  destruct (sgn a) eqn:Ha, (sgn b) eqn:Hb; try done;
    try (apply sgn_Eq in Ha as ->); try (apply sgn_Eq in Hb as ->);
    try (by rewrite Hzero); try (intros _; by rewrite Hzero);
    rewrite geb_Finite; intros Hab; apply not_true_iff_false;
    rewrite geb_Finite; intros Hba;
    apply (Qc_ratio_exclusive a b); try done;
    intros ->; by rewrite (proj2 (sgn_Eq _)) in *.
Qed.

(** X1: the test for vertical panning and the test for horizontal panning
    never hold together, whatever the frame and the container. *)
Theorem panning_tests_exclusive this frame :
  shouldDoVerticalPanning this frame && shouldDoHorizontalPanning this frame = false.
Proof.
  unfold shouldDoVerticalPanning, shouldDoHorizontalPanning.
  destruct (geb (ComicFramePosition.height frame / ComicFramePosition.width frame)%num
              panningFactor) eqn:Hratio; [|done].
  rewrite (ratio_tests_exclusive _ _ Hratio). simpl. apply andb_false_r.
Qed.

End PanningDecision.

(** ** The pan phase *)

Section PanPhase.

Implicit Types this : ComicBookPage.
Implicit Types f : ComicFrame.t.
Implicit Types pan final : ComicFramePosition.t.

(** X6: the two keyframes of a pan differ by a translation only: the
    image has the same width and height in both, the same left in a
    vertical pan and the same top in a horizontal one. *)
Theorem pan_is_a_translation this f pan final :
  panFramePositions this f = Some (pan, final) →
  let start := calcFramePositionAndSize this pan in
  let stop := calcFramePositionAndSize this final in
  ComicFrame.width stop = ComicFrame.width start
  ∧ ComicFrame.height stop = ComicFrame.height start
  ∧ (if shouldDoVerticalPanning this (makeFramePosition f)
     then ComicFrame.left stop = ComicFrame.left start
     else ComicFrame.top stop = ComicFrame.top start).
Proof.
  unfold panFramePositions.
  destruct (shouldDoVerticalPanning this (makeFramePosition f)).
  - by intros [= <- <-].
  - destruct (shouldDoHorizontalPanning this (makeFramePosition f)); [|done].
    by intros [= <- <-].
Qed.

Lemma pan_is_a_translation_witness :
  let this := activated tall_document "#frame1" (ofZ 3000) in
  ∃ pan final,
    panFramePositions this tall_frame = Some (pan, final)
    ∧ ComicFrame.width (calcFramePositionAndSize this final)
      = ComicFrame.width (calcFramePositionAndSize this pan)
    ∧ ComicFrame.left (calcFramePositionAndSize this final)
      = ComicFrame.left (calcFramePositionAndSize this pan).
Proof.
  cbv zeta.
  assert (Hpan : ∃ pan final,
            panFramePositions (activated tall_document "#frame1" (ofZ 3000)) tall_frame
            = Some (pan, final)) by (eexists _, _; vm_compute; reflexivity).
  destruct Hpan as (pan & final & Hpan). exists pan, final.
  split; [exact Hpan|].
  pose proof (pan_is_a_translation _ _ _ _ Hpan) as (Hw & _ & Hl).
  split; [exact Hw|].
  replace (shouldDoVerticalPanning (activated tall_document "#frame1" (ofZ 3000))
             (makeFramePosition tall_frame)) with true in Hl
    by (vm_compute; reflexivity).
  exact Hl.
Defined.

End PanPhase.

(** ** The shape of the keyframe sequence *)

Section KeyframeShape.

Implicit Types this : ComicBookPage.
Implicit Types f : ComicFrame.t.

Lemma panFramePositions_is_Some this f :
  is_Some (panFramePositions this f)
  ↔ shouldDoVerticalPanning this (makeFramePosition f)
    || shouldDoHorizontalPanning this (makeFramePosition f) = true.
Proof.
  unfold panFramePositions.
  destruct (shouldDoVerticalPanning this (makeFramePosition f)); simpl.
  - split; [done | by eexists].
  - destruct (shouldDoHorizontalPanning this (makeFramePosition f)).
    + split; [done | by eexists].
    + split; [by intros [? ?] | done].
Qed.

(** X8: the sequence has three keyframes when one of the panning tests
    holds and one otherwise; the first and the second last the focus
    duration of 750 ms; the first alone sets an opacity. *)
Theorem keyframes_shape this f :
  let keyframes := buildKeyframes this f in
  length keyframes =
    (if shouldDoVerticalPanning this (makeFramePosition f)
        || shouldDoHorizontalPanning this (makeFramePosition f)
     then 3 else 1)%nat
  ∧ (∀ i k, keyframes !! i = Some k → (i < 2)%nat →
            AnimeAnimParams.duration k = ofZ 750)
  ∧ (∀ i k, keyframes !! i = Some k →
            AnimeAnimParams.opacity k = if decide (i = 0%nat) then Some (ofZ 1) else None).
Proof.
  cbv zeta. unfold buildKeyframes.
  pose proof (panFramePositions_is_Some this f) as Hsome.
  destruct (panFramePositions this f) as [[pan final]|].
  - rewrite (proj1 Hsome) by (by eexists). repeat apply conj; [done| |].
    + intros [|[|[|i]]] k [= <-]; try done; lia.
    + by intros [|[|[|i]]] k [= <-].
  - destruct (_ || _); [by destruct (proj2 Hsome eq_refl)|].
    repeat apply conj; [done| |].
    + by intros [|i] k [= <-].
    + by intros [|i] k [= <-].
Qed.

End KeyframeShape.

(** ** A frame element without size *)

Section Unsized.

Implicit Types this : ComicBookPage.

Lemma style_number_missing (style : gmap string string) key :
  style !! key = None → style_number style key = ofZ 0.
Proof. intros Hnone. unfold style_number, getPropertyValue. by rewrite Hnone. Qed.

Lemma Qc_gt_20 (c : Qc) :
  (Q2Qc (inject_Z 20) < c)%Qc →
  sgn (c + - (Q2Qc (inject_Z 10) * Q2Qc (inject_Z 2)))%Qc = Gt.
Proof.
  intros Hlt. unfold sgn. apply Qcgt_alt. apply Qclt_minus_iff in Hlt.
  by replace (Q2Qc (inject_Z 10) * Q2Qc (inject_Z 2))%Qc with (Q2Qc (inject_Z 20))
    by (by apply Qc_is_canon).
Qed.

(** X9: an element with neither a width nor a height in its style gives
    a frame of width and height 0; such a frame is never panned over, and
    in a container larger than the padding it is shown at the largest
    zoom, 3. *)
Theorem unsized_area_is_shown_at_max_zoom this area (cw ch : Qc) :
  div_style area !! "width" = None → div_style area !! "height" = None →
  clientWidth this = Finite cw → clientHeight this = Finite ch →
  (Q2Qc (inject_Z 20) < cw)%Qc → (Q2Qc (inject_Z 20) < ch)%Qc →
  let f := extractComicFrame area in
  ComicFrame.width f = ofZ 0 ∧ ComicFrame.height f = ofZ 0
  ∧ panFramePositions this f = None
  ∧ length (buildKeyframes this f) = 1%nat
  ∧ frameScale this (makeFramePosition f) = MAX_ZOOM_VALUE.
Proof.
  intros Hwidth Hheight Hcw Hch Hcw20 Hch20. cbv zeta.
  assert (Hw : ComicFrame.width (extractComicFrame area) = ofZ 0)
    by (by apply style_number_missing).
  assert (Hh : ComicFrame.height (extractComicFrame area) = ofZ 0)
    by (by apply style_number_missing).
  assert (Hpan : panFramePositions this (extractComicFrame area) = None).
  { unfold panFramePositions, shouldDoVerticalPanning, shouldDoHorizontalPanning.
    cbn [makeFramePosition ComicFramePosition.width ComicFramePosition.height].
    by rewrite Hw, Hh. }
  repeat apply conj; try done.
  - unfold buildKeyframes. by rewrite Hpan.
  - unfold frameScale, paddedClientWidth, paddedClientHeight.
    cbn [makeFramePosition ComicFramePosition.width ComicFramePosition.height].
    rewrite Hw, Hh, Hcw, Hch. unfold framePadding, ofZ, sub, neg, div.
    cbn [add mul ToNumber].
    replace (Qcopp (Q2Qc (inject_Z 10) * Q2Qc (inject_Z 2)))
      with (- (Q2Qc (inject_Z 10) * Q2Qc (inject_Z 2)))%Qc by done.
    change (sgn (Q2Qc (inject_Z 0))) with Eq. cbn iota.
    by rewrite !Qc_gt_20.
Qed.

Lemma unsized_area_is_shown_at_max_zoom_witness :
  let area := {| div_id := "bare"; div_style := ∅ |} in
  let this := new_ComicBookPage tall_document in
  panFramePositions this (extractComicFrame area) = None
  ∧ frameScale this (makeFramePosition (extractComicFrame area)) = MAX_ZOOM_VALUE.
Proof.
  destruct (unsized_area_is_shown_at_max_zoom (new_ComicBookPage tall_document)
              {| div_id := "bare"; div_style := ∅ |}
              (Q2Qc (inject_Z 500)) (Q2Qc (inject_Z 500))
              (lookup_empty "width") (lookup_empty "height")
              eq_refl eq_refl eq_refl eq_refl)
    as (_ & _ & Hpan & _ & Hscale).
  exact (conj Hpan Hscale).
Defined.

End Unsized.

(** ** The keys and values of the registry *)

Section RegistryContents.

Implicit Types this : ComicBookPage.
Implicit Types areas : gmap string ComicFrame.t.
Implicit Types area : HTMLDivElement.

Lemma comicAreas_registry_of this :
  cache_valid this → (comicAreas this).1 = registry_of this.
Proof.
  intros Hvalid. unfold comicAreas.
  destruct (_areas this) as [areas|] eqn:Hareas; [by apply Hvalid | done].
Qed.

Lemma new_ComicBookPage_cache_valid d : cache_valid (new_ComicBookPage d).
Proof.
  unfold new_ComicBookPage. destruct (extractCanvasSize d). by intros areas.
Qed.

Lemma fold_register_area_is_Some divs : ∀ areas key,
  is_Some (fold_left register_area divs areas !! key)
  ↔ is_Some (areas !! key) ∨ ∃ area, area ∈ divs ∧ names key area.
Proof.
  induction divs as [|area divs IH]; intros areas key; simpl.
  - split; [by left|]. intros [?|(area & Hin & _)]; [done|].
    by apply elem_of_nil in Hin.
  - rewrite IH, register_area_lookup. unfold names. split.
    + intros [Hsome|(a & Hin & Ha)].
      * repeat case_decide; subst.
        -- right. exists area. split; [by left|by right].
        -- right. exists area. split; [by left|by left].
        -- by left.
      * right. exists a. split; [by right|done].
    + intros [Hsome|(a & Hin & Ha)].
      * left. by repeat case_decide.
      * apply elem_of_cons in Hin as [->|Hin].
        -- left. destruct Ha as [->| ->]; repeat case_decide; done.
        -- right. by exists a.
Qed.

(** X10: the registry holds exactly the ids of the image and of the frame
    elements, each as it is written and with a "#" before it. *)
Theorem registry_keys this key :
  cache_valid this →
  is_Some ((comicAreas this).1 !! key)
  ↔ key = img_id (document this) ∨ key = String "#" (img_id (document this))
    ∨ ∃ area, area ∈ body_divs (document this) ∧ names key area.
Proof.
  intros Hvalid. rewrite (comicAreas_registry_of this Hvalid). unfold registry_of.
  rewrite fold_register_area_is_Some, !lookup_insert.
  split.
  - intros [Hsome|Hdiv]; [|tauto].
    repeat case_decide; subst; try tauto.
    rewrite lookup_empty in Hsome. by destruct Hsome.
  - intros [->|[->|Hdiv]]; [left..|by right]; by repeat case_decide.
Qed.

Lemma registry_keys_witness :
  is_Some ((comicAreas (new_ComicBookPage tall_document)).1 !! "#frame1").
Proof.
  apply (registry_keys (new_ComicBookPage tall_document) "#frame1"
           (new_ComicBookPage_cache_valid tall_document)).
  right. right. exists (frame_div "frame1" "0px" "0px" "500px" "1750px").
  split; [by left | by right].
Defined.

Lemma fold_register_area_unnamed divs : ∀ areas key,
  (∀ area, area ∈ divs → ¬ names key area) →
  fold_left register_area divs areas !! key = areas !! key.
Proof.
  induction divs as [|area divs IH]; intros areas key Hnone; simpl; [done|].
  rewrite IH by (intros a Ha; apply Hnone; by right).
  rewrite register_area_lookup.
  assert (Harea : ¬ names key area) by (apply Hnone; by left).
  unfold names in Harea. repeat case_decide; subst; tauto.
Qed.

Lemma fold_register_area_named before area after areas key :
  names key area → (∀ a, a ∈ after → ¬ names key a) →
  fold_left register_area (before ++ area :: after)%list areas !! key
    = Some (extractComicFrame area).
Proof.
  intros Hname Hafter. rewrite fold_left_app. simpl.
  rewrite (fold_register_area_unnamed _ _ _ Hafter), register_area_lookup.
  destruct Hname as [->| ->]; by repeat case_decide.
Qed.

(** X11: a key is mapped to the frame of the last element that gives it;
    a key of the image that no element gives is mapped to the frame of the
    whole page, of the size of the canvas at the origin. *)
Theorem registry_values this key :
  cache_valid this →
  (∀ before area after,
     body_divs (document this) = (before ++ area :: after)%list →
     names key area → (∀ a, a ∈ after → ¬ names key a) →
     (comicAreas this).1 !! key = Some (extractComicFrame area))
  ∧ ((key = img_id (document this) ∨ key = String "#" (img_id (document this))) →
     (∀ a, a ∈ body_divs (document this) → ¬ names key a) →
     (comicAreas this).1 !! key =
       Some {| ComicFrame.height := CanvasSize.height (_canvasSize this);
               ComicFrame.width := CanvasSize.width (_canvasSize this);
               ComicFrame.left := ofZ 0;
               ComicFrame.top := ofZ 0 |}).
Proof.
  intros Hvalid. rewrite (comicAreas_registry_of this Hvalid). unfold registry_of.
  split.
  - intros before area after -> Hname Hafter. by apply fold_register_area_named.
  - intros Hkey Hnone. rewrite (fold_register_area_unnamed _ _ _ Hnone).
    rewrite !lookup_insert. destruct Hkey as [->| ->]; by repeat case_decide.
Qed.

Lemma registry_values_witness :
  (comicAreas (new_ComicBookPage tall_document)).1 !! "frame1"
    = Some (extractComicFrame (frame_div "frame1" "0px" "0px" "500px" "1750px")).
Proof.
  refine (proj1 (registry_values (new_ComicBookPage tall_document) "frame1"
                   (new_ComicBookPage_cache_valid tall_document))
            [] (frame_div "frame1" "0px" "0px" "500px" "1750px") [] eq_refl _ _).
  - by left.
  - intros a Ha. by apply elem_of_nil in Ha.
Defined.

End RegistryContents.

(** ** How [SetCurrentFrame] reads its argument *)

Section Argument.

Implicit Types this : ComicBookPage.

Lemma SetCurrentFrame_lookup this id duration :
  SetCurrentFrame this id duration =
    match (comicAreas this).1 !! toLocaleLowerCase id with
    | Some frame =>
        renderCurrentComicFrame (set_current (comicAreas this).2 (Some frame) duration)
    | None => (comicAreas this).2
    end.
Proof.
  destruct ((comicAreas this).1 !! toLocaleLowerCase id) as [frame|] eqn:Hlookup.
  - by apply SetCurrentFrame_Some.
  - by apply SetCurrentFrame_None.
Qed.

Lemma lower_ascii_idem c : lower_ascii (lower_ascii c) = lower_ascii c.
Proof. by destruct c as [[] [] [] [] [] [] [] []]. Qed.

Lemma toLocaleLowerCase_idem s :
  toLocaleLowerCase (toLocaleLowerCase s) = toLocaleLowerCase s.
Proof. induction s as [|c s IH]; simpl; [done|]. by rewrite lower_ascii_idem, IH. Qed.

Lemma starts_with_hash_lower s :
  starts_with_hash (toLocaleLowerCase s) = starts_with_hash s.
Proof. destruct s as [|c s]; [done|]. by destruct c as [[] [] [] [] [] [] [] []]. Qed.

Lemma starts_with_hash_false s t : starts_with_hash s = false → s ≠ String "#" t.
Proof. by intros Hs ->. Qed.

Lemma fold_register_area_hash divs key : ∀ areas,
  (∀ area, area ∈ divs → starts_with_hash (div_id area) = false) →
  starts_with_hash key = false →
  areas !! String "#" key = areas !! key →
  fold_left register_area divs areas !! String "#" key
    = fold_left register_area divs areas !! key.
Proof.
  induction divs as [|area divs IH]; intros areas Hdivs Hkey Hbase; [done|].
  simpl. apply IH; [intros a Ha; apply Hdivs; by right | done |].
  rewrite !register_area_lookup.
  pose proof (starts_with_hash_false key (div_id area) Hkey).
  pose proof (starts_with_hash_false _ key (Hdivs area ltac:(by left))).
  repeat case_decide; simplify_eq; done.
Qed.

Lemma registry_of_hash this key :
  starts_with_hash (img_id (document this)) = false →
  (∀ area, area ∈ body_divs (document this) → starts_with_hash (div_id area) = false) →
  starts_with_hash key = false →
  registry_of this !! String "#" key = registry_of this !! key.
Proof.
  intros Himg Hdivs Hkey. unfold registry_of.
  apply fold_register_area_hash; [done..|].
  rewrite !lookup_insert.
  pose proof (starts_with_hash_false key (img_id (document this)) Hkey).
  pose proof (starts_with_hash_false _ key Himg).
  repeat case_decide; simplify_eq; done.
Qed.

(** X12: when no id in the document starts with "#", a request names a
    frame with or without a leading "#" to the same effect. *)
Theorem leading_hash_is_optional this id duration :
  cache_valid this →
  starts_with_hash (img_id (document this)) = false →
  (∀ area, area ∈ body_divs (document this) → starts_with_hash (div_id area) = false) →
  starts_with_hash id = false →
  SetCurrentFrame this (String "#" id) duration = SetCurrentFrame this id duration.
Proof.
  intros Hvalid Himg Hdivs Hid. rewrite !SetCurrentFrame_lookup.
  rewrite (comicAreas_registry_of this Hvalid).
  change (toLocaleLowerCase (String "#" id)) with (String "#" (toLocaleLowerCase id)).
  rewrite registry_of_hash; [done..|]. by rewrite starts_with_hash_lower.
Qed.

Lemma leading_hash_is_optional_witness :
  SetCurrentFrame (new_ComicBookPage tall_document) "#frame1" (ofZ 3000)
    = SetCurrentFrame (new_ComicBookPage tall_document) "frame1" (ofZ 3000).
Proof.
  apply (leading_hash_is_optional (new_ComicBookPage tall_document) "frame1" (ofZ 3000)
           (new_ComicBookPage_cache_valid tall_document) eq_refl); [|reflexivity].
  intros area Harea. apply list_elem_of_singleton in Harea. by subst area.
Defined.

(** X13: a request is read up to the case of its letters: two ids with
    the same lowercase form have the same effect, and so have an id and its
    lowercase form. *)
Theorem request_ignores_case this id id' duration :
  (toLocaleLowerCase id = toLocaleLowerCase id' →
   SetCurrentFrame this id duration = SetCurrentFrame this id' duration)
  ∧ SetCurrentFrame this (toLocaleLowerCase id) duration
    = SetCurrentFrame this id duration.
Proof.
  split.
  - intros Hsame. by rewrite !SetCurrentFrame_lookup, Hsame.
  - by rewrite !SetCurrentFrame_lookup, toLocaleLowerCase_idem.
Qed.

Lemma request_ignores_case_witness :
  SetCurrentFrame (new_ComicBookPage tall_document) "#FRAME1" (ofZ 3000)
    = SetCurrentFrame (new_ComicBookPage tall_document) "#Frame1" (ofZ 3000).
Proof.
  exact (proj1 (request_ignores_case (new_ComicBookPage tall_document)
                  "#FRAME1" "#Frame1" (ofZ 3000)) eq_refl).
Defined.

End Argument.

(** ** Requests that find their frame, and sequences of events *)

Section Events.

Implicit Types this : ComicBookPage.

(** X14: when the lowercased id is a key of the registry, the request
    stores the frame found and the duration, and sends the engine one
    removal followed by one start, with the keyframes built for that frame
    and duration; the registry is cached, the document and the canvas size
    stay as they are. *)
Theorem SetCurrentFrame_known_id this id duration frame :
  (comicAreas this).1 !! toLocaleLowerCase id = Some frame → duration ≠ null →
  let this' := SetCurrentFrame this id duration in
  _currentFrame this' = Some frame ∧ _duration this' = Some duration
  ∧ engine this' =
      (engine this ++ [anime_remove; anime (buildKeyframes this' frame) easing])%list
  ∧ animeInstance this' = Some (buildKeyframes this' frame)
  ∧ _areas this' = Some (comicAreas this).1
  ∧ document this' = document this ∧ _canvasSize this' = _canvasSize this.
Proof.
  intros Hfound Hnull. cbv zeta. rewrite (SetCurrentFrame_Some this id duration frame Hfound).
  set (stored := set_current (comicAreas this).2 (Some frame) duration).
  assert (Hf : _currentFrame stored = Some frame) by done.
  assert (Hn : is_nullish (_duration stored) = false) by (cbn; by destruct duration).
  rewrite (renderCurrentComicFrame_Some stored frame Hf Hn).
  assert (Hk : buildKeyframes (start_animation (cls stored) (buildKeyframes stored frame))
                 frame = buildKeyframes stored frame).
  { transitivity (buildKeyframes (cls stored) frame);
      [reflexivity | apply buildKeyframes_cls]. }
  rewrite Hk.
  destruct (cls_fields stored) as (Hdoc & Heng & _ & Hareas & Hframe & Hcanvas & Hdur & _).
  destruct (comicAreas_fields this) as (Hd & He & _ & _ & Hc & _).
  cbn [start_animation _currentFrame _duration engine animeInstance _areas document
       _canvasSize].
  rewrite Hframe, Hdur, Heng, Hareas, Hdoc, Hcanvas. subst stored.
  cbn [set_current _currentFrame _duration engine _areas document _canvasSize].
  by rewrite He, Hd, Hc, comicAreas_cached.
Qed.

Lemma SetCurrentFrame_known_id_witness :
  let this := SetCurrentFrame (new_ComicBookPage tall_document) "#Frame1" (ofZ 3000) in
  _currentFrame this
    = Some (extractComicFrame (frame_div "frame1" "0px" "0px" "500px" "1750px"))
  ∧ _duration this = Some (ofZ 3000).
Proof.
  assert (Hfound : (comicAreas (new_ComicBookPage tall_document)).1
                     !! toLocaleLowerCase "#Frame1"
                   = Some (extractComicFrame
                             (frame_div "frame1" "0px" "0px" "500px" "1750px"))).
  { num_eq. }
  assert (Hnull : ofZ 3000 ≠ null) by discriminate.
  destruct (SetCurrentFrame_known_id (new_ComicBookPage tall_document)
              "#Frame1" (ofZ 3000) _ Hfound Hnull) as (Hframe & Hduration & _).
  exact (conj Hframe Hduration).
Defined.

End Events.

Section Runs.

Implicit Types this : ComicBookPage.

Lemma paired_app calls : ∀ more, paired calls = true → paired (calls ++ more) = paired more.
Proof.
  induction calls as [calls IH] using (induction_ltof1 _ length). unfold ltof in IH.
  intros more Hpaired.
  destruct calls as [|[|k e] [|[|k' e'] rest]]; try done.
  simpl in *. apply IH; [simpl; lia | done].
Qed.

(** A rendering reads the name for the log and then stops, or starts an
    animation. *)
Lemma renderCurrentComicFrame_cases this :
  renderCurrentComicFrame this = cls this
  ∨ ∃ keyframes, renderCurrentComicFrame this = start_animation (cls this) keyframes.
Proof.
  unfold renderCurrentComicFrame. cbv zeta.
  destruct (_currentFrame (cls this)); [|by left].
  destruct (is_nullish (_duration (cls this))); [by left | right; by eexists].
Qed.

Lemma kept_refl this : kept this this.
Proof.
  repeat apply conj; try done. exists []. by rewrite app_nil_r.
Qed.

Lemma registry_of_ext this this' :
  _canvasSize this' = _canvasSize this →
  img_id (document this') = img_id (document this) →
  body_divs (document this') = body_divs (document this) →
  registry_of this' = registry_of this.
Proof.
  intros Hc Hi Hd. unfold registry_of, ensureComicFrame. by rewrite Hc, Hi, Hd.
Qed.

Lemma kept_trans this1 this2 this3 : kept this1 this2 → kept this2 this3 → kept this1 this3.
Proof.
  intros (Hc & Hi & Hds & Hb & (m & He & Hp) & Hv)
         (Hc' & Hi' & Hds' & Hb' & (m' & He' & Hp') & Hv').
  repeat apply conj; try congruence; [|tauto].
  exists (m ++ m')%list. split.
  - by rewrite He', He, app_assoc.
  - by rewrite paired_app.
Qed.

Lemma kept_cls this : kept this (cls this).
Proof.
  destruct (cls_fields this) as (Hd & He & _ & Ha & _ & Hc & _).
  repeat apply conj; try (by rewrite ?Hd, ?Hc).
  - exists []. by rewrite app_nil_r.
  - intros Hvalid areas. rewrite Ha. intros Hareas.
    rewrite (Hvalid areas Hareas). symmetry.
    apply registry_of_ext; by rewrite ?Hd, ?Hc.
Qed.

Lemma kept_render this : kept this (renderCurrentComicFrame this).
Proof.
  destruct (renderCurrentComicFrame_cases this) as [->|[keyframes ->]];
    [apply kept_cls|].
  apply (kept_trans _ _ _ (kept_cls this)).
  repeat apply conj; try done. by eexists.
Qed.

Lemma kept_comicAreas this : kept this (comicAreas this).2.
Proof.
  destruct (comicAreas_fields this) as (Hd & He & _ & _ & Hc & _).
  repeat apply conj; try (by rewrite ?Hd, ?Hc).
  - exists []. by rewrite app_nil_r.
  - intros Hvalid areas. rewrite comicAreas_cached. intros [= <-].
    rewrite (comicAreas_registry_of this Hvalid).
    symmetry. apply registry_of_ext; by rewrite ?Hd, ?Hc.
Qed.

Lemma kept_step this e : kept this (step this e).
Proof.
  destruct e as [id duration|width height]; simpl.
  - rewrite SetCurrentFrame_lookup.
    destruct (_ !! _) as [frame|]; [|apply kept_comicAreas].
    apply (kept_trans _ _ _ (kept_comicAreas this)).
    eapply kept_trans; [|apply kept_render].
    repeat apply conj; try done.
    exists []. by rewrite app_nil_r.
  - eapply kept_trans; [|apply kept_render].
    repeat apply conj; try done.
    exists []. by rewrite app_nil_r.
Qed.

(** X15: whatever requests and resizes follow one another, the canvas
    size, the image and the frame elements of the document stay as they
    were; the calls to the engine are only added to, always as a removal
    followed by a start; and a cache of the registry that agrees with the
    document keeps agreeing with it. *)
Theorem run_keeps this events :
  let this' := run this events in
  _canvasSize this' = _canvasSize this
  ∧ img_id (document this') = img_id (document this)
  ∧ img_dataset_CanvasSize (document this') = img_dataset_CanvasSize (document this)
  ∧ body_divs (document this') = body_divs (document this)
  ∧ (∃ more, engine this' = (engine this ++ more)%list ∧ paired more = true)
  ∧ (cache_valid this → cache_valid this').
Proof.
  cbv zeta. change (kept this (run this events)). unfold run.
  revert this. induction events as [|e events IH]; intros this; simpl.
  - apply kept_refl.
  - exact (kept_trans _ _ _ (kept_step this e) (IH (step this e))).
Qed.

End Runs.

(** ** Reading lengths from a style *)

Section StyleValues.

Implicit Types s rest unit : string.
Implicit Types d : Decimal.uint.

Lemma leading_digits_stop a rest :
  starts_with_digit rest = false → leading_digits (Some a) rest = Some a.
Proof.
  destruct rest as [|c rest]; [done|]. simpl.
  destruct (digit_value c); [|done].
  intros Hdigit. apply bool_decide_eq_false in Hdigit. by destruct Hdigit.
Qed.

Lemma leading_digits_uint d : ∀ (a : nat) rest,
  starts_with_digit rest = false →
  leading_digits (Some (Z.of_nat a)) (NilEmpty.string_of_uint d ++ rest)
    = Some (Z.of_nat (Nat.of_uint_acc d a)).
Proof.
  induction d as [|d IH|d IH|d IH|d IH|d IH|d IH|d IH|d IH|d IH|d IH];
    intros a rest Hrest;
    [by apply leading_digits_stop|..];
    cbn [NilEmpty.string_of_uint Nat.of_uint_acc];
    match goal with
    | |- context [String ?c ?s +:+ ?r] =>
        change (String c s +:+ r) with (String c (s +:+ r));
        cbn [leading_digits];
        let v := eval vm_compute in (digit_value c) in
        change (digit_value c) with v
    end;
    cbn [default from_option id]; rewrite <- (IH _ rest) by done; do 2 f_equal;
    rewrite Nat.tail_mul_spec; lia.
Qed.

Lemma leading_digits_start s :
  starts_with_digit s = true → leading_digits None s = leading_digits (Some 0%Z) s.
Proof.
  destruct s as [|c s]; [done|]. simpl. destruct (digit_value c); [done|].
  intros Hdigit. apply bool_decide_eq_true in Hdigit. by destruct Hdigit.
Qed.

Lemma to_uint_nonnil n : Nat.to_uint n ≠ Decimal.Nil.
Proof.
  rewrite <- (DecimalNat.Unsigned.of_to n) at 1.
  rewrite DecimalNat.Unsigned.to_of. apply DecimalFacts.unorm_nonnil.
Qed.

Lemma string_of_uint_digits d rest :
  d ≠ Decimal.Nil →
  ∃ c tail, (NilEmpty.string_of_uint d ++ rest = String c tail)
            ∧ is_Some (digit_value c).
Proof.
  destruct d; [done|..]; intros _; simpl; eexists _, _; split; try reflexivity;
    by eexists.
Qed.

(** A string that starts with an ASCII character other than white space
    has no white space to skip. *)
Lemma trimStart_ascii c tail :
  (nat_of_ascii c < 128)%nat → is_white_space c = false →
  trimStart (String c tail) = String c tail.
Proof.
  intros Hascii Hws. cbn [trimStart]. rewrite Hws.
  assert (Hne : ∀ n, (128 ≤ n)%nat → (nat_of_ascii c =? n)%nat = false)
    by (intros n Hn; apply Nat.eqb_neq; lia).
  destruct tail as [|c2 [|c3 tail]]; [done|..];
    unfold is_white_space2, is_white_space3; cbv zeta;
    rewrite !Hne by lia; reflexivity.
Qed.

Lemma digit_value_ascii c :
  is_Some (digit_value c) → (nat_of_ascii c < 128)%nat ∧ is_white_space c = false
                            ∧ c ≠ "-"%char ∧ c ≠ "+"%char.
Proof.
  intros Hdigit.
  destruct c as [[] [] [] [] [] [] [] []]; try (by destruct Hdigit);
    by (repeat apply conj; [vm_compute; lia | ..]).
Qed.

(** What starts with a decimal digit is read from that digit on, with no
    sign. *)
Lemma parseInt_unsigned c tail :
  is_Some (digit_value c) →
  parseInt (String c tail) = match leading_digits None (String c tail) with
                             | None => NaN
                             | Some n => to_double (1 * n)
                             end.
Proof.
  intros Hdigit. destruct (digit_value_ascii c Hdigit) as (Hascii & Hws & Hminus & Hplus).
  unfold parseInt. rewrite (trimStart_ascii c tail Hascii Hws).
  destruct c as [[] [] [] [] [] [] [] []]; done.
Qed.

Lemma parseInt_decimal n rest :
  (Z.of_nat n ≤ 2 ^ 53)%Z → starts_with_digit rest = false →
  parseInt (decimal n ++ rest) = ofZ (Z.of_nat n).
Proof.
  intros Hn Hrest. unfold decimal.
  destruct (string_of_uint_digits (Nat.to_uint n) rest (to_uint_nonnil n))
    as (c & tail & Heq & Hdigit).
  rewrite Heq, (parseInt_unsigned c tail Hdigit), <- Heq.
  rewrite leading_digits_start
    by (rewrite Heq; simpl; by apply bool_decide_eq_true).
  change (Some 0%Z) with (Some (Z.of_nat 0)).
  rewrite (leading_digits_uint (Nat.to_uint n) 0 rest Hrest).
  change (Nat.of_uint_acc (Nat.to_uint n) 0) with (Nat.of_uint (Nat.to_uint n)).
  rewrite DecimalNat.Unsigned.of_to, to_double_small by lia. f_equal. lia.
Qed.

End StyleValues.

Section StyleExtraction.

Implicit Types style : gmap string string.
Implicit Types rest unit value : string.

Lemma replace_px_end_uint d unit :
  replace_px_end (NilEmpty.string_of_uint d ++ unit)
    = NilEmpty.string_of_uint d ++ replace_px_end unit.
Proof.
  induction d as [|d IH|d IH|d IH|d IH|d IH|d IH|d IH|d IH|d IH|d IH];
    [done|..]; cbn [NilEmpty.string_of_uint];
    match goal with
    | |- context [String ?c ?s +:+ ?r] =>
        change (String c s +:+ r) with (String c (s +:+ r));
        change (String c s +:+ replace_px_end r)
          with (String c (s +:+ replace_px_end r))
    end;
    cbn [replace_px_end]; rewrite IH; reflexivity.
Qed.

Lemma replace_px_end_head unit :
  starts_with_digit unit = false → starts_with_digit (replace_px_end unit) = false.
Proof.
  destruct unit as [|c unit]; [done|]. cbn [replace_px_end].
  by destruct (String.eqb _ _).
Qed.

Lemma decimal_nonempty n rest : String.eqb (decimal n ++ rest) "" = false.
Proof.
  unfold decimal.
  by destruct (string_of_uint_digits (Nat.to_uint n) rest (to_uint_nonnil n))
    as (c & tail & -> & _).
Qed.

Lemma style_number_decimal style key n unit :
  (Z.of_nat n ≤ 2 ^ 53)%Z →
  style !! key = Some (decimal n ++ unit) → starts_with_digit unit = false →
  style_number style key = ofZ (Z.of_nat n).
Proof.
  intros Hn Hvalue Hunit. unfold style_number, getPropertyValue. rewrite Hvalue.
  cbn [default from_option id]. rewrite decimal_nonempty.
  unfold decimal. rewrite replace_px_end_uint.
  by apply parseInt_decimal, replace_px_end_head.
Qed.

Lemma style_number_px style key n :
  (Z.of_nat n ≤ 2 ^ 53)%Z →
  style !! key = Some (px n) → style_number style key = ofZ (Z.of_nat n).
Proof. intros Hn Hvalue. by apply (style_number_decimal style key n "px"). Qed.

(** X16: a style property that is not set, or set to the empty string, is
    read as 0; one set to a natural number of at most 2^53 in decimal,
    followed by a unit that does not start with a digit (as in "120px"
    or "50%"), is read as that number. *)
Theorem style_number_reads_lengths style key :
  (style !! key = None ∨ style !! key = Some "" → style_number style key = ofZ 0)
  ∧ (∀ n unit,
       (Z.of_nat n ≤ 2 ^ 53)%Z →
       style !! key = Some (decimal n ++ unit) → starts_with_digit unit = false →
       style_number style key = ofZ (Z.of_nat n)).
Proof.
  split.
  - intros [Hnone|Hempty]; [by apply style_number_missing|].
    unfold style_number, getPropertyValue. by rewrite Hempty.
  - intros n unit. apply style_number_decimal.
Qed.

Lemma style_number_reads_lengths_witness :
  style_number (style_of [("width", "120px")]) "height" = ofZ 0
  ∧ style_number (style_of [("width", "120px")]) "width" = ofZ 120.
Proof.
  split.
  - apply (proj1 (style_number_reads_lengths (style_of [("width", "120px")]) "height")).
    left. vm_compute. reflexivity.
  - apply (proj2 (style_number_reads_lengths (style_of [("width", "120px")]) "width")
             120%nat "px"); vm_compute; [discriminate | reflexivity | reflexivity].
Defined.

Lemma frame_div_lookup id left top width height :
  let style := div_style (frame_div id left top width height) in
  style !! "left" = Some left ∧ style !! "top" = Some top
  ∧ style !! "width" = Some width ∧ style !! "height" = Some height.
Proof.
  cbn. unfold style_of. cbn [list_to_map foldr uncurry fst snd].
  rewrite !lookup_insert. repeat apply conj; by repeat case_decide.
Qed.

(** X17: a frame element whose style gives left, top, width and height as
    natural numbers of pixels, none above 2^53, is extracted as the frame
    with exactly those numbers. *)
Theorem extractComicFrame_px id (left top width height : nat) :
  (Z.of_nat left ≤ 2 ^ 53)%Z → (Z.of_nat top ≤ 2 ^ 53)%Z →
  (Z.of_nat width ≤ 2 ^ 53)%Z → (Z.of_nat height ≤ 2 ^ 53)%Z →
  extractComicFrame (frame_div id (px left) (px top) (px width) (px height))
    = {| ComicFrame.height := ofZ (Z.of_nat height);
         ComicFrame.width := ofZ (Z.of_nat width);
         ComicFrame.left := ofZ (Z.of_nat left);
         ComicFrame.top := ofZ (Z.of_nat top) |}.
Proof.
  intros Hleft Htop Hwidth Hheight.
  destruct (frame_div_lookup id (px left) (px top) (px width) (px height))
    as (Hl & Ht & Hw & Hh).
  unfold extractComicFrame.
  by rewrite (style_number_px _ _ _ Hleft Hl), (style_number_px _ _ _ Htop Ht),
    (style_number_px _ _ _ Hwidth Hw), (style_number_px _ _ _ Hheight Hh).
Qed.

Lemma extractComicFrame_px_witness :
  extractComicFrame (frame_div "frame1" "10px" "20px" "500px" "1750px")
    = {| ComicFrame.height := ofZ 1750; ComicFrame.width := ofZ 500;
         ComicFrame.left := ofZ 10; ComicFrame.top := ofZ 20 |}.
Proof.
  apply (extractComicFrame_px "frame1" 10 20 500 1750); vm_compute; discriminate.
Defined.

Lemma replace_px_end_keeps_head c tail :
  replace_px_end (String c tail) = ""
  ∨ ∃ tail', replace_px_end (String c tail) = String c tail'.
Proof. cbn [replace_px_end]. destruct (String.eqb _ _); [by left | right; by eexists]. Qed.

Lemma parseInt_no_number c tail :
  (nat_of_ascii c < 128)%nat →
  digit_value c = None → is_white_space c = false →
  c ≠ "-"%char → c ≠ "+"%char → parseInt (String c tail) = NaN.
Proof.
  intros Hascii Hdigit Hws Hminus Hplus. unfold parseInt.
  rewrite (trimStart_ascii c tail Hascii Hws).
  destruct c as [[] [] [] [] [] [] [] []]; try done; cbn [leading_digits];
    by rewrite Hdigit.
Qed.

(** X18: every coordinate of an extracted frame is [NaN], an infinity or
    an integer, never a fraction; and a property whose value starts with an
    ASCII character that is neither white space, nor a sign, nor a digit
    (as in "auto") is read as [NaN]. *)
Theorem extracted_coordinates area :
  (∀ coordinate,
     coordinate ∈ [ComicFrame.height (extractComicFrame area);
                   ComicFrame.width (extractComicFrame area);
                   ComicFrame.left (extractComicFrame area);
                   ComicFrame.top (extractComicFrame area)] →
     coordinate = NaN ∨ (∃ negative, coordinate = Infinity negative)
     ∨ ∃ z, coordinate = ofZ z)
  ∧ (∀ key c tail,
       div_style area !! key = Some (String c tail) →
       (nat_of_ascii c < 128)%nat →
       digit_value c = None → is_white_space c = false →
       c ≠ "-"%char → c ≠ "+"%char →
       style_number (div_style area) key = NaN).
Proof.
  split.
  - intros coordinate Hin. unfold extractComicFrame in Hin. cbn in Hin.
    repeat (apply elem_of_cons in Hin as [->|Hin]; [apply style_number_cases|]).
    by apply elem_of_nil in Hin.
  - intros key c tail Hvalue Hascii Hdigit Hws Hminus Hplus.
    unfold style_number, getPropertyValue. rewrite Hvalue.
    cbn [default from_option id String.eqb].
    destruct (replace_px_end_keeps_head c tail) as [->|[tail' ->]]; [done|].
    by apply parseInt_no_number.
Qed.

Lemma extracted_coordinates_witness :
  style_number (div_style (frame_div "f" "auto" "0px" "1px" "2px")) "left" = NaN.
Proof.
  apply (proj2 (extracted_coordinates (frame_div "f" "auto" "0px" "1px" "2px"))
           "left" "a"%char "uto"); try done.
  vm_compute. lia.
Defined.

End StyleExtraction.

(** ** Instance numbers *)

Section InstanceNumbers.

Import Instance.

Implicit Types st : store.



End InstanceNumbers.

(** ** Stepping through the narration *)

Section Navigation.

Import DemoComicPanning.

Implicit Types this : DemoComicPanning.t.

Lemma navLength_set_navIdx this i : navLength (set_navIdx this i) = navLength this.
Proof. done. Qed.

Lemma narrationItem_in_range this :
  (0 ≤ navIdx this < navLength this)%Z → is_Some (narrationItem this).
Proof.
  unfold narrationItem, navLength. intros [Hlow Hhigh].
  destruct (first_narration this) as [nodes|]; [|lia].
  destruct (navIdx this <? 0)%Z eqn:Hneg; [lia|].
  apply lookup_lt_is_Some. lia.
Qed.

(** X21: while the index is within the narration, both handlers keep it
    there, so that there is always a current item: the next-segment
    handler adds one unless the index is the last, the previous-segment
    handler takes one away unless the index is 0. *)
Theorem navigation_stays_in_range this :
  (0 ≤ navIdx this < navLength this)%Z →
  let next := nextSegmentEvent this in
  let prev := prevSegmentEvent this in
  (0 ≤ navIdx next < navLength next)%Z ∧ (0 ≤ navIdx prev < navLength prev)%Z
  ∧ navIdx next = (if canGoForward this then navIdx this + 1 else navIdx this)%Z
  ∧ navIdx prev = (if canGoBack this then navIdx this - 1 else navIdx this)%Z
  ∧ is_Some (narrationItem next) ∧ is_Some (narrationItem prev).
Proof.
  intros Hrange. cbv zeta.
  assert (Hnext : (0 ≤ navIdx (nextSegmentEvent this) < navLength (nextSegmentEvent this))%Z
                  ∧ navIdx (nextSegmentEvent this)
                    = (if canGoForward this then navIdx this + 1 else navIdx this)%Z).
  { unfold nextSegmentEvent, canGoForward. rewrite navLength_set_navIdx.
    cbn [navIdx set_navIdx].
    destruct (navIdx this + 1 <? navLength this)%Z eqn:Hlt; lia. }
  assert (Hprev : (0 ≤ navIdx (prevSegmentEvent this) < navLength (prevSegmentEvent this))%Z
                  ∧ navIdx (prevSegmentEvent this)
                    = (if canGoBack this then navIdx this - 1 else navIdx this)%Z).
  { unfold prevSegmentEvent, canGoBack.
    destruct (0 <? navIdx this)%Z eqn:Hlt; [|done].
    rewrite navLength_set_navIdx. cbn [navIdx set_navIdx]. lia. }
  destruct Hnext as [Hnext Hnext'], Hprev as [Hprev Hprev'].
  split; [exact Hnext|]. split; [exact Hprev|].
  split; [exact Hnext'|]. split; [exact Hprev'|].
  split; by apply narrationItem_in_range.
Qed.

(** X22: within the narration, going forward and then back returns to
    the same state when there is a next item, and so does going back and
    then forward when there is a previous one. *)
Theorem navigation_cancels this :
  (0 ≤ navIdx this < navLength this)%Z →
  (canGoForward this = true → prevSegmentEvent (nextSegmentEvent this) = this)
  ∧ (canGoBack this = true → nextSegmentEvent (prevSegmentEvent this) = this).
Proof.
  intros Hrange. unfold canGoForward, canGoBack. split; intros Hcan.
  - unfold nextSegmentEvent, prevSegmentEvent. cbn [navIdx set_navIdx].
    replace (Z.min (navLength this - 1) (navIdx this + 1)) with (navIdx this + 1)%Z by lia.
    replace (0 <? navIdx this + 1)%Z with true by lia.
    destruct this as [overlay i]. cbn. f_equal. lia.
  - unfold prevSegmentEvent. rewrite Hcan. unfold nextSegmentEvent.
    rewrite navLength_set_navIdx. cbn [navIdx set_navIdx].
    replace (Z.min (navLength this - 1) (navIdx this - 1 + 1)) with (navIdx this) by lia.
    by destruct this.
Qed.

(** X23: with no narration loaded the next-segment handler does not keep
    the index at 0: it sets it to -1, where there is no current item and
    from where neither handler moves it again. *)
Theorem next_without_narration this :
  navLength this = 0%Z → navIdx this = 0%Z →
  let next := nextSegmentEvent this in
  navIdx next = (-1)%Z ∧ narrationItem next = None
  ∧ canGoBack next = false ∧ canGoForward next = false
  ∧ prevSegmentEvent next = next ∧ nextSegmentEvent next = next.
Proof.
  intros Hlength Hidx. cbv zeta. destruct this as [overlay i].
  unfold nextSegmentEvent, prevSegmentEvent, canGoBack, canGoForward, narrationItem.
  rewrite !navLength_set_navIdx, Hlength. cbn [navIdx set_navIdx mediaOverlay] in *.
  subst i. cbn. repeat apply conj; try done.
  unfold first_narration. cbn [mediaOverlay].
  by destruct overlay as [[? [|? ?]]|].
Qed.

End Navigation.

Section NavigationExamples.

Import DemoComicPanning.

Lemma navigation_stays_in_range_witness :
  navIdx (nextSegmentEvent three_items) = 2%Z
  ∧ navIdx (prevSegmentEvent three_items) = 0%Z.
Proof.
  assert (Hrange : (0 ≤ navIdx three_items < navLength three_items)%Z)
    by (cbn; lia).
  destruct (navigation_stays_in_range three_items Hrange)
    as (_ & _ & Hnext & Hprev & _).
  exact (conj Hnext Hprev).
Defined.

Lemma navigation_cancels_witness :
  prevSegmentEvent (nextSegmentEvent three_items) = three_items.
Proof.
  assert (Hrange : (0 ≤ navIdx three_items < navLength three_items)%Z)
    by (cbn; lia).
  exact (proj1 (navigation_cancels three_items Hrange) eq_refl).
Defined.

Lemma next_without_narration_witness :
  navIdx (nextSegmentEvent {| mediaOverlay := None; navIdx := 0 |}) = (-1)%Z.
Proof.
  exact (proj1 (next_without_narration {| mediaOverlay := None; navIdx := 0 |}
                  eq_refl eq_refl)).
Defined.

End NavigationExamples.

Lemma run_keeps_witness :
  let events := [Activate "#frame1" (ofZ 3000); Resize (ofZ 800) (ofZ 600);
                 Activate "nowhere" (ofZ 10)] in
  cache_valid (run (new_ComicBookPage tall_document) events).
Proof.
  cbv zeta.
  destruct (run_keeps (new_ComicBookPage tall_document)
              [Activate "#frame1" (ofZ 3000); Resize (ofZ 800) (ofZ 600);
               Activate "nowhere" (ofZ 10)])
    as (_ & _ & _ & _ & _ & Hvalid).
  exact (Hvalid (new_ComicBookPage_cache_valid tall_document)).
Defined.
